(** * Self-playing snake game (src/snake_game_6.py)

    A shallow embedding of the game logic: the grid constants, the free-cell
    sampler [random_position], the greedy controller
    [get_valid_directions] / [get_direction_to_food], the high-score file
    operations and the body of the [while running] loop of [main].

    Python integers are [Z].  Cells and directions are pairs of integers in
    pixel units, as in the source.  The three ambient effects of the program
    are made explicit:
    - the pseudo-random generator is an oracle [randint_oracle] answering the
      k-th call of the [random] module, with the number of calls made so far
      kept in the world;
    - the wall clock is an oracle [clock_oracle] answering the k-th call of
      [time.time()]; readings are rationals (the rounding of the float
      subtraction is not modelled);
    - the high-score file is an optional string (absent or its content).
    Drawing calls do not touch the game state and are left out.

    The [while True] loop of [random_position] and the [while running] loop
    of [main] take a bound on their iterations; an outcome is a value with
    the new world, an exception, or [OutOfFuel] when the bound is reached.

    Contents: the program; the vocabulary of the statements; lemmas on the
    sampling loop, the controller and one iteration of the game loop; the
    invariants of a run; the properties of the specification; concrete
    runs. *)

From Stdlib Require Import ZArith QArith List Bool String Ascii Lia.
From Stdlib Require Import DecimalString DecimalZ DecimalPos.
Import ListNotations.

Local Open Scope Z_scope.

(** ** Constants (lines 10-24) *)

Definition WIDTH : Z := 600.
Definition HEIGHT : Z := 400.
Definition CELL_SIZE : Z := 20.

Definition Cell : Type := (Z * Z)%type.
Definition Dir : Type := (Z * Z)%type.

Definition UP : Dir := (0, -1).
Definition DOWN : Dir := (0, 1).
Definition LEFT : Dir := (-1, 0).
Definition RIGHT : Dir := (1, 0).

Definition HIGH_SCORE_FILE : string := "highscore.txt".

(** ** Python values used by the game *)

(** Tuple equality, as used by [==] and by [in] on lists of tuples. *)
Definition cell_eqb (a b : Cell) : bool :=
  (fst a =? fst b) && (snd a =? snd b).

(** [x in l] for a list of tuples. *)
Definition cell_in (c : Cell) (l : list Cell) : bool :=
  existsb (cell_eqb c) l.

(** [len] and truth value of a 2-tuple: a tuple is falsy only when empty. *)
Definition tuple_len (t : Z * Z) : nat := 2.
Definition tuple_truthy (t : Z * Z) : bool := negb (Nat.eqb (tuple_len t) 0).

(** [l.remove(x)]: drops the first occurrence, [None] stands for the
    [ValueError] raised when there is none. *)
Fixpoint list_remove (x : Cell) (l : list Cell) : option (list Cell) :=
  match l with
  | [] => None
  | y :: l' =>
      if cell_eqb y x then Some l'
      else option_map (cons y) (list_remove x l')
  end.

(** [l.pop()]: drops the last element, [None] stands for the [IndexError]
    raised on an empty list. *)
Definition list_pop (l : list Cell) : option (list Cell) :=
  match l with
  | [] => None
  | _ => Some (removelast l)
  end.

(** [s.strip()]: leading and trailing whitespace removed. *)
Definition is_space (a : ascii) : bool :=
  let n := nat_of_ascii a in
  (Nat.eqb n 32 || (Nat.leb 9 n && Nat.leb n 13) || (Nat.leb 28 n && Nat.leb n 31))%bool.

Fixpoint lstrip (s : string) : string :=
  match s with
  | EmptyString => EmptyString
  | String a s' => if is_space a then lstrip s' else s
  end.

Fixpoint rstrip (s : string) : string :=
  match s with
  | EmptyString => EmptyString
  | String a s' =>
      match rstrip s' with
      | EmptyString => if is_space a then EmptyString else String a EmptyString
      | r => String a r
      end
  end.

Definition strip (s : string) : string := rstrip (lstrip s).

(** [str(n)] for an integer: its decimal numeral. *)
Definition py_str (n : Z) : string := NilZero.string_of_int (Z.to_int n).

(** [int(s)] for a string: a decimal numeral with an optional minus sign;
    [None] stands for [ValueError].  (Python also accepts a plus sign and
    underscores between digits; such strings are never written by the
    program.) *)
Definition py_int (s : string) : option Z :=
  option_map Z.of_int (NilZero.int_of_string s).

(** ** The world outside the game variables *)

Record World : Type := mkWorld {
  rng_calls : nat;            (* calls made to the random module *)
  clock_calls : nat;          (* calls made to time.time() *)
  hs_file : option string     (* content of highscore.txt, if it exists *)
}.

Inductive exn : Type := IndexError | ValueError.

(** Outcome of running a piece of the program: a value and the new world,
    an uncaught exception, or a sampling loop still running when the
    iteration budget is spent. *)
Inductive outcome (A : Type) : Type :=
| Ok (a : A) (w : World)
| Raise (e : exn)
| OutOfFuel.

Arguments Ok {A} a w.
Arguments Raise {A} e.
Arguments OutOfFuel {A}.

Definition M (A : Type) : Type := World -> outcome A.

Definition ret {A} (a : A) : M A := fun w => Ok a w.

Definition bind {A B} (m : M A) (k : A -> M B) : M B :=
  fun w =>
    match m w with
    | Ok a w' => k a w'
    | Raise e => Raise e
    | OutOfFuel => OutOfFuel
    end.

Definition raise {A} (e : exn) : M A := fun _ => Raise e.

Notation "x <- m ;; k" := (bind m (fun x => k))
  (at level 61, m at next level, right associativity).
Notation "m ;;; k" := (bind m (fun _ => k))
  (at level 61, right associativity).

Section Game.

(** The k-th call to the random module, asked for an integer in [lo, hi]. *)
Variable randint_oracle : nat -> Z -> Z -> Z.

(** The k-th reading of the wall clock, in seconds. *)
Variable clock_oracle : nat -> Q.

(** [random.randint(lo, hi)] *)
Definition randint (lo hi : Z) : M Z :=
  fun w =>
    Ok (randint_oracle (rng_calls w) lo hi)
       (mkWorld (S (rng_calls w)) (clock_calls w) (hs_file w)).

(** [random.choice(seq)]: [IndexError] on an empty sequence. *)
Definition random_choice (l : list Dir) : M Dir :=
  match l with
  | [] => raise IndexError
  | d0 :: _ =>
      i <- randint 0 (Z.of_nat (List.length l) - 1) ;;
      ret (nth (Z.to_nat i) l d0)
  end.

(** [time.time()] *)
Definition time_time : M Q :=
  fun w =>
    Ok (clock_oracle (clock_calls w))
       (mkWorld (rng_calls w) (S (clock_calls w)) (hs_file w)).

(** ** High-score file (lines 38-49) *)

Definition load_high_score : M Z :=
  fun w =>
    match hs_file w with
    | Some content =>
        match strip content with
        | EmptyString => Ok 0 w
        | s =>
            match py_int s with
            | Some n => Ok n w
            | None => Raise ValueError
            end
        end
    | None => Ok 0 w
    end.

Definition save_high_score (score : Z) : M unit :=
  fun w => Ok tt (mkWorld (rng_calls w) (clock_calls w) (Some (py_str score))).

(** ** Free-cell sampling (lines 52-58)

    The [while True] loop, with a bound on the number of iterations:
    [OutOfFuel] means the loop is still sampling after [fuel] rounds. *)
Fixpoint random_position (fuel : nat) (exclude : list Cell) : M Cell :=
  match fuel with
  | O => fun _ => OutOfFuel
  | S fuel' =>
      x <- randint 0 (WIDTH / CELL_SIZE - 1) ;;
      y <- randint 0 (HEIGHT / CELL_SIZE - 1) ;;
      let pos := (x * CELL_SIZE, y * CELL_SIZE) in
      if negb (cell_in pos exclude) then ret pos
      else random_position fuel' exclude
  end.

(** ** Controller (lines 61-98) *)

Definition get_valid_directions (snake obstacles : list Cell) : M (list Dir) :=
  match snake with
  | [] => raise IndexError
  | (head_x, head_y) :: _ =>
      ret (filter
             (fun move =>
                let new_pos := (head_x + fst move * CELL_SIZE,
                                head_y + snd move * CELL_SIZE) in
                (0 <=? fst new_pos) && (fst new_pos <? WIDTH) &&
                (0 <=? snd new_pos) && (snd new_pos <? HEIGHT) &&
                negb (cell_in new_pos snake) &&
                negb (cell_in new_pos obstacles))
             [UP; DOWN; LEFT; RIGHT])
  end.

(** [distance < min_distance], where [None] is [float('inf')]. *)
Definition lt_min (distance : Z) (min_distance : option Z) : bool :=
  match min_distance with
  | None => true
  | Some m => distance <? m
  end.

(** The [for move in valid_moves] loop of lines 89-96, as a fold over the
    pair (best_move, min_distance). *)
Definition scan_moves (head food : Cell) (valid_moves : list Dir)
  : option Dir * option Z :=
  fold_left
    (fun (acc : option Dir * option Z) (move : Dir) =>
       let new_x := fst head + fst move * CELL_SIZE in
       let new_y := snd head + snd move * CELL_SIZE in
       let distance := Z.abs (fst food - new_x) + Z.abs (snd food - new_y) in
       if lt_min distance (snd acc) then (Some move, Some distance) else acc)
    valid_moves (None, None).

Definition get_direction_to_food (snake : list Cell) (food : Cell)
    (obstacles : list Cell) : M Dir :=
  valid_moves <- get_valid_directions snake obstacles ;;
  match valid_moves with
  | [] => ret RIGHT
  | _ =>
      match snake with
      | [] => raise IndexError
      | head :: _ =>
          let best_move := fst (scan_moves head food valid_moves) in
          match best_move with
          | Some move =>
              if tuple_truthy move then ret move
              else random_choice valid_moves
          | None => random_choice valid_moves
          end
      end
  end.

(** ** The game loop (lines 110-179) *)

(** The local variables of [main]. *)
Record Game : Type := mkGame {
  snake : list Cell;
  direction : Dir;
  fruit : Cell;
  obstacles : list Cell;
  last_obstacle_time : Q;
  score : Z;
  high_score : Z;
  running : bool
}.

(** Lines 111-119. *)
Definition main_init (fuel : nat) : M Game :=
  let snake0 := [(WIDTH / 2, HEIGHT / 2)] in
  fruit0 <- random_position fuel snake0 ;;
  t0 <- time_time ;;
  hs <- load_high_score ;;
  ret (mkGame snake0 RIGHT fruit0 [] t0 0 hs true).

(** [a > b] on clock readings. *)
Definition Qgtb (a b : Q) : bool := negb (Qle_bool a b).

(** The head the snake would move to (lines 129-130). *)
Definition next_head (head : Cell) (d : Dir) : Cell :=
  (fst head + fst d * CELL_SIZE, snd head + snd d * CELL_SIZE).

(** The collision test of lines 133-135. *)
Definition hits_wall_or_self (new_head : Cell) (body : list Cell) : bool :=
  cell_in new_head body ||
  (fst new_head <? 0) || (WIDTH <=? fst new_head) ||
  (snd new_head <? 0) || (HEIGHT <=? snd new_head).

(** Lines 139-142: the obstacle check, on the pair (score, obstacles). *)
Definition obstacle_check (new_head : Cell) (sc : Z) (obs : list Cell)
  : M (Z * list Cell) :=
  if cell_in new_head obs then
    match list_remove new_head obs with
    | Some obs' => ret (Z.max 0 (sc - 3), obs')
    | None => raise ValueError
    end
  else ret (sc, obs).

(** Lines 151-153: a new high score is recorded and saved at once.  The
    result is the value of [high_score] afterwards. *)
Definition commit_high_score (sc hs : Z) : M Z :=
  if hs <? sc then
    save_high_score sc ;;;
    ret sc
  else ret hs.

(** Lines 147-155: eat the fruit or drop the tail.  [body] is the snake
    with the new head already inserted; the result is the tuple
    (snake, fruit, score, high_score). *)
Definition eat_or_pop (fuel : nat) (new_head : Cell) (body : list Cell)
    (fr : Cell) (obs : list Cell) (sc hs : Z)
  : M (list Cell * Cell * Z * Z) :=
  if cell_eqb new_head fr then
    fr' <- random_position fuel (body ++ obs) ;;
    let sc' := sc + 5 in
    hs' <- commit_high_score sc' hs ;;
    ret (body, fr', sc', hs')
  else
    match list_pop body with
    | Some body' => ret (body', fr, sc, hs)
    | None => raise IndexError
    end.

(** Lines 157-160: the obstacle cadence, on the pair
    (obstacles, last_obstacle_time). *)
Definition spawn_obstacle (fuel : nat) (body : list Cell) (fr : Cell)
    (obs : list Cell) (last : Q) : M (list Cell * Q) :=
  now <- time_time ;;
  if Qgtb (now - last) 2 then
    ob <- random_position fuel (body ++ obs ++ [fr]) ;;
    t <- time_time ;;
    ret (obs ++ [ob], t)
  else ret (obs, last).

(** One iteration of the [while running] loop (lines 121-177, drawing
    left out). *)
Definition loop_body (fuel : nat) (g : Game) : M Game :=
  new_direction <- get_direction_to_food (snake g) (fruit g) (obstacles g) ;;
  let dir := if tuple_truthy new_direction then new_direction
             else direction g in
  match snake g with
  | [] => raise IndexError
  | head :: _ =>
      let new_head := next_head head dir in
      if hits_wall_or_self new_head (snake g) then
        ret (mkGame (snake g) dir (fruit g) (obstacles g)
                    (last_obstacle_time g) (score g) (high_score g) false)
      else
        so <- obstacle_check new_head (score g) (obstacles g) ;;
        let body := new_head :: snake g in
        r <- eat_or_pop fuel new_head body (fruit g) (snd so) (fst so)
                        (high_score g) ;;
        let '(body', fr', sc', hs') := r in
        ol <- spawn_obstacle fuel body' fr' (snd so) (last_obstacle_time g) ;;
        ret (mkGame body' dir fr' (fst ol) (snd ol) sc' hs' true)
  end.

(** The [while running] loop, for at most [ticks] iterations. *)
Fixpoint while_running (ticks fuel : nat) (g : Game) : M Game :=
  if running g then
    match ticks with
    | O => fun _ => OutOfFuel
    | S ticks' => g' <- loop_body fuel g ;; while_running ticks' fuel g'
    end
  else ret g.

Definition main (ticks fuel : nat) : M Game :=
  g <- main_init fuel ;;
  while_running ticks fuel g.

(** Completed iterations of the loop: [run_from fuel g w g' w'] when the
    loop, started in state [g] and world [w], is in state [g'] and world [w']
    after some number of iterations. *)
Inductive run_from (fuel : nat) (g : Game) (w : World)
  : Game -> World -> Prop :=
| run_here : run_from fuel g w g w
| run_tick : forall g1 w1 g2 w2,
    run_from fuel g w g1 w1 ->
    running g1 = true ->
    loop_body fuel g1 w1 = Ok g2 w2 ->
    run_from fuel g w g2 w2.

(** The states at the tick boundaries of a run of [main]: the state the
    initialisation leaves and every state reached from it. *)
Definition reachable (g : Game) (w : World) : Prop :=
  exists fuel w0 g0 w1,
    main_init fuel w0 = Ok g0 w1 /\ run_from fuel g0 w1 g w.

(** The state at the [n]-th tick boundary: [n] iterations, fewer when the
    run ends earlier. *)
Fixpoint run_ticks (n fuel : nat) (g : Game) : M Game :=
  match n with
  | O => ret g
  | S n' =>
      if running g then g' <- loop_body fuel g ;; run_ticks n' fuel g'
      else ret g
  end.

Definition main_ticks (n fuel : nat) : M Game :=
  g <- main_init fuel ;;
  run_ticks n fuel g.

(** ** Vocabulary of the statements *)

(** The four directions in the order the controller enumerates them. *)
Definition all_directions : list Dir := [UP; DOWN; LEFT; RIGHT].

Definition in_bounds (c : Cell) : bool :=
  (0 <=? fst c) && (fst c <? WIDTH) && (0 <=? snd c) && (snd c <? HEIGHT).

(** A direction is valid when the head it leads to is inside the screen, off
    the snake and off every obstacle. *)
Definition valid_move (body obs : list Cell) (head : Cell) (d : Dir) : bool :=
  in_bounds (next_head head d) &&
  negb (cell_in (next_head head d) body) &&
  negb (cell_in (next_head head d) obs).

Definition manhattan (food c : Cell) : Z :=
  Z.abs (fst food - fst c) + Z.abs (snd food - snd c).

(** The direction the controller settles on, as a function of the state it
    reads (no effect is involved, see [get_direction_to_food_pure]). *)
Definition chosen_direction (head : Cell) (tl : list Cell) (food : Cell)
    (obs : list Cell) : Dir :=
  match filter (valid_move (head :: tl) obs head) all_directions with
  | [] => RIGHT
  | a :: l =>
      match fst (scan_moves head food (a :: l)) with
      | Some d => d
      | None => RIGHT
      end
  end.

(** The heading of the coming iteration (lines 124-126) and the head it
    leads to (lines 129-130), read off the state. *)
Definition tick_direction (g : Game) : Dir :=
  match snake g with
  | [] => direction g
  | head :: tl => chosen_direction head tl (fruit g) (obstacles g)
  end.

Definition tick_head (g : Game) : Cell :=
  match snake g with
  | [] => (0, 0)
  | head :: _ => next_head head (tick_direction g)
  end.

(** The coming iteration stops the run (lines 133-137). *)
Definition terminal_tick (g : Game) : bool :=
  hits_wall_or_self (tick_head g) (snake g).

(** Score and obstacle list once the obstacle check of the coming
    iteration is done (lines 139-142). *)
Definition score_after_check (g : Game) : Z :=
  if cell_in (tick_head g) (obstacles g) then Z.max 0 (score g - 3)
  else score g.

Definition obstacles_after_check (g : Game) : list Cell :=
  if cell_in (tick_head g) (obstacles g) then
    match list_remove (tick_head g) (obstacles g) with
    | Some obs' => obs'
    | None => obstacles g
    end
  else obstacles g.

(** The state a run-ending iteration leaves (lines 136-137): only the
    heading and the [running] flag are assigned. *)
Definition stopped (g : Game) : Game :=
  mkGame (snake g) (tick_direction g) (fruit g) (obstacles g)
         (last_obstacle_time g) (score g) (high_score g) false.

(** What every tick boundary of a run satisfies (see [reachable_inv]). *)
Definition Inv (g : Game) : Prop :=
  snake g <> [] /\ NoDup (snake g) /\ ~ In (fruit g) (obstacles g) /\
  0 <= score g.

(** The cell an iteration of the sampling loop draws when the random module
    has been called [c] times. *)
Definition draw (c : nat) : Cell :=
  (randint_oracle c 0 (WIDTH / CELL_SIZE - 1) * CELL_SIZE,
   randint_oracle (S c) 0 (HEIGHT / CELL_SIZE - 1) * CELL_SIZE).

(** Every cell of the grid, column by column. *)
Definition grid_cells : list Cell :=
  flat_map
    (fun i => map (fun j => (Z.of_nat i * CELL_SIZE, Z.of_nat j * CELL_SIZE))
                  (seq 0 (Z.to_nat (HEIGHT / CELL_SIZE))))
    (seq 0 (Z.to_nat (WIDTH / CELL_SIZE))).

(** [random.randint(lo, hi)] answers within its bounds. *)
Definition randint_in_range : Prop :=
  forall k lo hi, lo <= hi -> lo <= randint_oracle k lo hi <= hi.

(** The random source, read from its [c]-th call on, draws every cell of
    the grid at some iteration of the sampling loop. *)
Definition fair_from (c : nat) : Prop :=
  forall cell, In cell grid_cells -> exists k, draw (c + 2 * k) = cell.

(** All the ways [n] rounds of the sampling loop can draw their cells. *)
Fixpoint draw_sequences (n : nat) : list (list Cell) :=
  match n with
  | O => [[]]
  | S n' => flat_map (fun c => map (cons c) (draw_sequences n')) grid_cells
  end.

(** The rounds that drew [cells] all landed on excluded cells. *)
Definition all_excluded (exclude cells : list Cell) : bool :=
  forallb (fun c => cell_in c exclude) cells.

(** The world after [n] rounds of the sampling loop. *)
Definition after_draws (w : World) (n : nat) : World :=
  mkWorld (rng_calls w + 2 * n) (clock_calls w) (hs_file w).

(** No cell occurs twice in [l]. *)
Fixpoint nodupb (l : list Cell) : bool :=
  match l with
  | [] => true
  | a :: l' => negb (cell_in a l') && nodupb l'
  end.

(** No character of [s] is whitespace. *)
Fixpoint no_space (s : string) : bool :=
  match s with
  | EmptyString => true
  | String a s' => negb (is_space a) && no_space s'
  end.

(** The random source is fair from every round boundary.  (The game makes
    its calls to the random module two at a time.) *)
Definition fair : Prop := forall m, fair_from (2 * m).

(** Consecutive cells of [l] are one grid step apart. *)
Fixpoint connected (l : list Cell) : Prop :=
  match l with
  | [] => True
  | a :: tl =>
      match tl with
      | [] => True
      | b :: _ => manhattan a b = CELL_SIZE
      end /\ connected tl
  end.

(** What the board looks like at a tick boundary of a run, beyond [Inv]
    (see [reachable_board]). *)
Definition Board (g : Game) : Prop :=
  ~ In (fruit g) (snake g) /\
  NoDup (obstacles g) /\
  (forall c, In c (obstacles g) -> ~ In c (snake g)) /\
  (forall c, In c (snake g) -> In c grid_cells) /\
  connected (snake g) /\
  score g <= 5 * (Z.of_nat (List.length (snake g)) - 1).

(** The integer the high-score file stands for, as [load_high_score] reads
    it: [None] when reading raises. *)
Definition stored_value (file : option string) : option Z :=
  match file with
  | None => Some 0
  | Some content =>
      match strip content with
      | EmptyString => Some 0
      | s => py_int s
      end
  end.

(** Every character of [s] is whitespace. *)
Fixpoint all_space (s : string) : bool :=
  match s with
  | EmptyString => true
  | String a s' => is_space a && all_space s'
  end.

(** An ASCII letter. *)
Definition is_letter (a : ascii) : bool :=
  let n := nat_of_ascii a in
  ((Nat.leb 65 n && Nat.leb n 90) || (Nat.leb 97 n && Nat.leb n 122))%bool.

(** ** Basic facts *)

Lemma cell_eqb_eq (a b : Cell) : cell_eqb a b = true <-> a = b.
Proof.
  unfold cell_eqb. destruct a as [ax ay], b as [bx by']. simpl.
  rewrite andb_true_iff, !Z.eqb_eq. split.
  - intros [-> ->]. reflexivity.
  - intros H. inversion H. auto.
Qed.

Lemma cell_eqb_refl (a : Cell) : cell_eqb a a = true.
Proof. apply cell_eqb_eq. reflexivity. Qed.

Lemma cell_eqb_neq (a b : Cell) : cell_eqb a b = false <-> a <> b.
Proof.
  rewrite <- cell_eqb_eq. destruct (cell_eqb a b); split; congruence.
Qed.

Lemma cell_in_In (c : Cell) (l : list Cell) : cell_in c l = true <-> In c l.
Proof.
  unfold cell_in. rewrite existsb_exists. split.
  - intros [x [Hx He]]. apply cell_eqb_eq in He. subst. assumption.
  - intros H. exists c. split; [assumption | apply cell_eqb_refl].
Qed.

Lemma cell_in_not_In (c : Cell) (l : list Cell) :
  cell_in c l = false <-> ~ In c l.
Proof.
  rewrite <- cell_in_In. destruct (cell_in c l); split; congruence.
Qed.

(** ** Lists as the loop uses them *)

Lemma list_remove_spec (x : Cell) (l : list Cell) :
  cell_in x l = true ->
  exists l1 l2,
    l = l1 ++ x :: l2 /\ ~ In x l1 /\ list_remove x l = Some (l1 ++ l2).
Proof.
  induction l as [|y l IH]; simpl; [discriminate |].
  rewrite orb_true_iff. intros H.
  destruct (cell_eqb y x) eqn:E.
  - apply cell_eqb_eq in E. subst y.
    exists [], l. simpl. auto.
  - assert (cell_in x l = true) as Hin.
    { destruct H as [H | H]; [| exact H].
      apply cell_eqb_eq in H. subst y. rewrite cell_eqb_refl in E.
      discriminate. }
    destruct (IH Hin) as (l1 & l2 & -> & Hn & ->).
    exists (y :: l1), l2. simpl. repeat split; auto.
    apply cell_eqb_neq in E. intros [? | ?]; auto.
Qed.

Lemma removelast_cons_length {A} (a : A) (l : list A) :
  List.length (removelast (a :: l)) = List.length l.
Proof.
  revert a. induction l as [|b l IH]; intros a; [reflexivity |].
  change (removelast (a :: b :: l)) with (a :: removelast (b :: l)).
  cbn [List.length]. rewrite (IH b). reflexivity.
Qed.

Lemma removelast_In {A} (x : A) (l : list A) :
  In x (removelast l) -> In x l.
Proof.
  induction l as [|a l IH]; [intros [] |].
  destruct l as [|b l]; [intros [] |].
  change (removelast (a :: b :: l)) with (a :: removelast (b :: l)).
  intros [-> | H]; [left; reflexivity | right; auto].
Qed.

Lemma removelast_NoDup {A} (l : list A) : NoDup l -> NoDup (removelast l).
Proof.
  induction l as [|a l IH]; intros H; [constructor |].
  destruct l as [|b l]; [constructor |].
  change (removelast (a :: b :: l)) with (a :: removelast (b :: l)).
  inversion H; subst. constructor.
  - intros Hin. apply removelast_In in Hin. contradiction.
  - auto.
Qed.

Lemma removelast_cons_cons {A} (a b : A) (l : list A) :
  removelast (a :: b :: l) = a :: removelast (b :: l).
Proof. reflexivity. Qed.

Lemma removelast_cons_nonempty {A} (a : A) (l : list A) :
  l <> [] -> removelast (a :: l) = a :: removelast l.
Proof. destruct l; [congruence | reflexivity]. Qed.

(** ** The sampling loop *)

Lemma random_position_step (fuel : nat) (exclude : list Cell) (w : World) :
  random_position (S fuel) exclude w =
  if cell_in (draw (rng_calls w)) exclude
  then random_position fuel exclude (after_draws w 1)
  else Ok (draw (rng_calls w)) (after_draws w 1).
Proof.
  unfold after_draws. replace (rng_calls w + 2 * 1)%nat with (S (S (rng_calls w))) by lia.
  cbn [random_position]. unfold bind, randint, ret, draw. cbn.
  destruct (cell_in _ exclude); reflexivity.
Qed.

Lemma after_draws_draws (w : World) (n m : nat) :
  after_draws (after_draws w n) m = after_draws w (n + m).
Proof. unfold after_draws. cbn. f_equal. lia. Qed.

(** What a result of the loop says about the draws: the result is the
    first drawn cell outside [exclude]. *)
Lemma random_position_inv (fuel : nat) (exclude : list Cell) :
  forall w p w',
    random_position fuel exclude w = Ok p w' ->
    exists k,
      (k < fuel)%nat /\
      p = draw (rng_calls w + 2 * k) /\
      cell_in p exclude = false /\
      (forall j, (j < k)%nat ->
                 cell_in (draw (rng_calls w + 2 * j)) exclude = true) /\
      w' = after_draws w (S k).
Proof.
  induction fuel as [|fuel IH]; intros w p w' H; [discriminate |].
  rewrite random_position_step in H.
  destruct (cell_in (draw (rng_calls w)) exclude) eqn:E.
  - destruct (IH _ _ _ H) as (k & Hk & Hp & Hfree & Hbefore & Hw).
    cbn [after_draws rng_calls] in Hp, Hbefore.
    exists (S k). repeat split.
    + lia.
    + rewrite Hp. f_equal. lia.
    + assumption.
    + intros [|j] Hj.
      * rewrite Nat.mul_0_r, Nat.add_0_r. assumption.
      * specialize (Hbefore j ltac:(lia)).
        replace (rng_calls w + 2 * S j)%nat
          with (rng_calls w + 2 * 1 + 2 * j)%nat by lia.
        assumption.
    + rewrite Hw, after_draws_draws. reflexivity.
  - inversion H; subst. exists O. repeat split.
    + lia.
    + rewrite Nat.mul_0_r, Nat.add_0_r. reflexivity.
    + assumption.
    + intros j Hj. lia.
Qed.

Lemma random_position_no_raise (fuel : nat) (exclude : list Cell) :
  forall w e, random_position fuel exclude w <> Raise e.
Proof.
  induction fuel as [|fuel IH]; intros w e; [discriminate |].
  rewrite random_position_step.
  destruct (cell_in _ exclude); [apply IH | discriminate].
Qed.

(** A free cell at the [k]-th draw ends the loop within [k + 1] rounds. *)
Lemma random_position_hits (exclude : list Cell) (k : nat) :
  forall w,
    cell_in (draw (rng_calls w + 2 * k)) exclude = false ->
    exists p w', random_position (S k) exclude w = Ok p w'.
Proof.
  induction k as [|k IH]; intros w H; rewrite random_position_step.
  - rewrite Nat.mul_0_r, Nat.add_0_r in H. rewrite H. eauto.
  - destruct (cell_in (draw (rng_calls w)) exclude); [| eauto].
    apply IH. cbn [after_draws rng_calls].
    replace (rng_calls w + 2 * 1 + 2 * k)%nat
      with (rng_calls w + 2 * S k)%nat by lia.
    assumption.
Qed.

(** More rounds do not change a result. *)
Lemma random_position_more_fuel (exclude : list Cell) (fuel : nat) :
  forall w p w' extra,
    random_position fuel exclude w = Ok p w' ->
    random_position (fuel + extra) exclude w = Ok p w'.
Proof.
  induction fuel as [|fuel IH]; intros w p w' extra H; [discriminate |].
  change (S fuel + extra)%nat with (S (fuel + extra)).
  rewrite random_position_step in *.
  destruct (cell_in _ exclude); [apply IH |]; assumption.
Qed.

(** ** The controller *)

Lemma get_valid_directions_filter (head : Cell) (tl obs : list Cell) (w : World) :
  get_valid_directions (head :: tl) obs w =
  Ok (filter (valid_move (head :: tl) obs head) all_directions) w.
Proof. destruct head as [hx hy]. reflexivity. Qed.

(** Splitting a filtered list splits the list it was filtered from. *)
Lemma filter_split {A} (P : A -> bool) (l : list A) :
  forall l1 d l2,
    filter P l = l1 ++ d :: l2 ->
    exists m1 m2,
      l = m1 ++ d :: m2 /\ filter P m1 = l1 /\ filter P m2 = l2 /\ P d = true.
Proof.
  induction l as [|a l IH]; intros l1 d l2 H; simpl in H.
  - destruct l1; discriminate.
  - destruct (P a) eqn:Pa.
    + destruct l1 as [|b l1]; simpl in H; inversion H; subst.
      * exists [], l. simpl. auto.
      * destruct (IH _ _ _ H2) as (m1 & m2 & -> & F1 & F2 & Pd).
        exists (b :: m1), m2. simpl. rewrite Pa, F1. auto.
    + destruct (IH _ _ _ H) as (m1 & m2 & -> & F1 & F2 & Pd).
      exists (a :: m1), m2. simpl. rewrite Pa. auto.
Qed.

Section Scan.

Variables head food : Cell.

Let dist (d : Dir) : Z := manhattan food (next_head head d).

Let step (acc : option Dir * option Z) (move : Dir) : option Dir * option Z :=
  let new_x := fst head + fst move * CELL_SIZE in
  let new_y := snd head + snd move * CELL_SIZE in
  let distance := Z.abs (fst food - new_x) + Z.abs (snd food - new_y) in
  if lt_min distance (snd acc) then (Some move, Some distance) else acc.

Lemma step_eq (acc : option Dir * option Z) (move : Dir) :
  step acc move =
  if lt_min (dist move) (snd acc) then (Some move, Some (dist move)) else acc.
Proof. reflexivity. Qed.

(** The loop started with a best move [b] already recorded: it ends on [b]
    when nothing later is strictly closer, and otherwise on the first
    strictly closer move that nothing after it beats. *)
Lemma scan_from (l : list Dir) :
  forall b,
  exists d,
    fold_left step l (Some b, Some (dist b)) = (Some d, Some (dist d)) /\
    ((d = b /\ forall d', In d' l -> dist b <= dist d') \/
     (exists l1 l2,
        l = l1 ++ d :: l2 /\ dist d < dist b /\
        (forall d', In d' l1 -> dist d < dist d') /\
        (forall d', In d' l2 -> dist d <= dist d'))).
Proof.
  induction l as [|a l IH]; intros b.
  - exists b. split; [reflexivity | left; split; [reflexivity | intros d' []]].
  - cbn [fold_left]. rewrite step_eq. cbn [snd lt_min].
    destruct (Z.ltb_spec (dist a) (dist b)) as [Hlt | Hge].
    + destruct (IH a) as (d & Hf & [[-> Hall] | (l1 & l2 & -> & Hd & H1 & H2)]).
      * exists a. split; [assumption | right].
        exists [], l. simpl. repeat split; auto. intros d' [].
      * exists d. split; [assumption | right].
        exists (a :: l1), l2. simpl. repeat split; auto; try lia.
        intros d' [<- | Hin]; auto.
    + destruct (IH b) as (d & Hf & [[-> Hall] | (l1 & l2 & -> & Hd & H1 & H2)]).
      * exists b. split; [assumption | left]. split; [reflexivity |].
        intros d' [<- | Hin]; auto.
      * exists d. split; [assumption | right].
        exists (a :: l1), l2. simpl. repeat split; auto.
        intros d' [<- | Hin]; auto. lia.
Qed.

(** On a non-empty list the loop returns the first move of minimal
    distance. *)
Lemma scan_moves_first_min (a : Dir) (l : list Dir) :
  exists d l1 l2,
    fst (scan_moves head food (a :: l)) = Some d /\
    a :: l = l1 ++ d :: l2 /\
    (forall d', In d' l1 -> dist d < dist d') /\
    (forall d', In d' l2 -> dist d <= dist d').
Proof.
  unfold scan_moves. cbn [fold_left].
  change (fold_left _ l ?acc) with (fold_left step l acc).
  change (fold_left step l _)
    with (fold_left step l (step (None, None) a)).
  rewrite step_eq. cbn [snd lt_min].
  destruct (scan_from l a) as (d & Hf & [[-> Hall] | (l1 & l2 & -> & Hd & H1 & H2)]).
  - exists a, [], l. rewrite Hf. simpl. repeat split; auto. intros d' [].
  - exists d, (a :: l1), l2. rewrite Hf. simpl. repeat split; auto.
    intros d' [<- | Hin]; auto.
Qed.

End Scan.

Lemma scan_moves_some (head food : Cell) (a : Dir) (l : list Dir) :
  exists d, fst (scan_moves head food (a :: l)) = Some d /\ In d (a :: l).
Proof.
  destruct (scan_moves_first_min head food a l) as (d & l1 & l2 & E & S & _).
  exists d. split; [assumption |]. rewrite S. apply in_elt.
Qed.

Lemma get_direction_to_food_pure (head : Cell) (tl : list Cell) (food : Cell)
    (obs : list Cell) (w : World) :
  get_direction_to_food (head :: tl) food obs w =
  Ok (chosen_direction head tl food obs) w.
Proof.
  unfold get_direction_to_food, chosen_direction, bind.
  rewrite get_valid_directions_filter.
  destruct (filter _ all_directions) as [|a l]; [reflexivity |].
  destruct (scan_moves_some head food a l) as (d & -> & _).
  reflexivity.
Qed.

Lemma chosen_direction_in (head : Cell) (tl : list Cell) (food : Cell)
    (obs : list Cell) :
  In (chosen_direction head tl food obs) all_directions.
Proof.
  unfold chosen_direction.
  destruct (filter _ all_directions) as [|a l] eqn:F.
  - simpl. auto.
  - destruct (scan_moves_some head food a l) as (d & -> & Hin).
    rewrite <- F in Hin. apply filter_In in Hin. tauto.
Qed.

(** C1: for a non-empty snake, when no direction is valid the controller
    answers RIGHT; when some direction is valid it answers a valid direction
    [d] such that every valid direction enumerated before [d] is strictly
    farther from the food and every valid direction enumerated after [d] is
    at least as far: the first valid direction of minimal Manhattan
    distance in the order UP, DOWN, LEFT, RIGHT. *)
Theorem get_direction_to_food_greedy (head : Cell) (tl : list Cell)
    (food : Cell) (obs : list Cell) (w : World) :
  let body := head :: tl in
  let valid := valid_move body obs head in
  let dist := fun d => manhattan food (next_head head d) in
  ((forall d, In d all_directions -> valid d = false) ->
   get_direction_to_food body food obs w = Ok RIGHT w) /\
  ((exists d, In d all_directions /\ valid d = true) ->
   exists d before after,
     get_direction_to_food body food obs w = Ok d w /\
     all_directions = before ++ d :: after /\
     valid d = true /\
     (forall d', In d' before -> valid d' = true -> dist d < dist d') /\
     (forall d', In d' after -> valid d' = true -> dist d <= dist d')).
Proof.
  intros body valid dist. subst body.
  rewrite get_direction_to_food_pure. unfold chosen_direction.
  fold valid.
  destruct (filter valid all_directions) as [|a l] eqn:F; split.
  - reflexivity.
  - intros (d & Hin & Hv).
    assert (In d (filter valid all_directions)) as Hf
      by (apply filter_In; auto).
    rewrite F in Hf. destruct Hf.
  - intros Hnone.
    assert (In a (filter valid all_directions)) as Hf
      by (rewrite F; left; reflexivity).
    apply filter_In in Hf. destruct Hf as [Hin Hv].
    rewrite (Hnone a Hin) in Hv. discriminate.
  - intros _.
    destruct (scan_moves_first_min head food a l)
      as (d & l1 & l2 & -> & S & Hbefore & Hafter).
    rewrite S in F.
    destruct (filter_split valid all_directions l1 d l2 F)
      as (m1 & m2 & Hall & F1 & F2 & Hd).
    exists d, m1, m2. repeat split; auto.
    + intros d' Hin Hv. apply Hbefore. rewrite <- F1.
      apply filter_In. auto.
    + intros d' Hin Hv. apply Hafter. rewrite <- F2.
      apply filter_In. auto.
Qed.

(** ** One iteration of the loop *)

Lemma loop_body_terminal (fuel : nat) (g : Game) (w : World) :
  snake g <> [] -> terminal_tick g = true ->
  loop_body fuel g w = Ok (stopped g) w.
Proof.
  intros Hne Hterm. unfold loop_body, bind.
  unfold terminal_tick, tick_head, stopped, tick_direction in *.
  destruct (snake g) as [|head tl]; [congruence |].
  rewrite get_direction_to_food_pure. cbn [tuple_truthy tuple_len Nat.eqb negb].
  rewrite Hterm. reflexivity.
Qed.

Lemma obstacle_check_pure (g : Game) (w : World) :
  obstacle_check (tick_head g) (score g) (obstacles g) w =
  Ok (score_after_check g, obstacles_after_check g) w.
Proof.
  unfold obstacle_check, score_after_check, obstacles_after_check.
  destruct (cell_in (tick_head g) (obstacles g)) eqn:E; [| reflexivity].
  destruct (list_remove_spec _ _ E) as (l1 & l2 & _ & _ & ->).
  reflexivity.
Qed.

Lemma loop_body_moving (fuel : nat) (g : Game) (w : World) :
  snake g <> [] -> terminal_tick g = false ->
  loop_body fuel g w =
  (r <- eat_or_pop fuel (tick_head g) (tick_head g :: snake g) (fruit g)
                   (obstacles_after_check g) (score_after_check g)
                   (high_score g) ;;
   let '(body', fr', sc', hs') := r in
   ol <- spawn_obstacle fuel body' fr' (obstacles_after_check g)
                        (last_obstacle_time g) ;;
   ret (mkGame body' (tick_direction g) fr' (fst ol) (snd ol) sc' hs' true)) w.
Proof.
  intros Hne Hterm. unfold loop_body.
  unfold bind at 1.
  pose proof (obstacle_check_pure g) as Hoc.
  unfold terminal_tick, tick_head, tick_direction in *.
  destruct (snake g) as [|head tl]; [congruence |].
  rewrite get_direction_to_food_pure. cbn [tuple_truthy tuple_len Nat.eqb negb].
  rewrite Hterm. unfold bind at 1. rewrite Hoc. reflexivity.
Qed.

Lemma commit_high_score_spec (sc hs : Z) (w : World) :
  commit_high_score sc hs w =
  Ok (Z.max hs sc)
     (if hs <? sc
      then mkWorld (rng_calls w) (clock_calls w) (Some (py_str sc))
      else w).
Proof.
  unfold commit_high_score, bind, save_high_score, ret.
  destruct (Z.ltb_spec hs sc); f_equal; lia.
Qed.

Lemma Qgtb_true (a b : Q) : Qgtb a b = true <-> (b < a)%Q.
Proof.
  unfold Qgtb. rewrite negb_true_iff.
  destruct (Qle_bool a b) eqn:E.
  - apply Qle_bool_iff in E. split; [discriminate |].
    intros H. exfalso. apply (Qlt_not_le _ _ H E).
  - split; [intros _ | reflexivity].
    apply Qnot_le_lt. intros H. apply Qle_bool_iff in H. congruence.
Qed.

Lemma Qgtb_false (a b : Q) : Qgtb a b = false <-> (a <= b)%Q.
Proof.
  unfold Qgtb. rewrite negb_false_iff. apply Qle_bool_iff.
Qed.

(** The two ways lines 147-155 end, on a snake [body] that already has the
    new head in front. *)
Lemma eat_or_pop_inv (fuel : nat) (new_head a : Cell) (l : list Cell)
    (fr : Cell) (obs : list Cell) (sc hs : Z) (w : World) :
  match eat_or_pop fuel new_head (a :: l) fr obs sc hs w with
  | Ok (body', fr', sc', hs') w' =>
      clock_calls w' = clock_calls w /\
      ((new_head = fr /\ body' = a :: l /\ sc' = sc + 5 /\
        hs' = Z.max hs sc' /\ ~ In fr' ((a :: l) ++ obs) /\
        hs_file w' = if hs <? sc' then Some (py_str sc') else hs_file w) \/
       (new_head <> fr /\ body' = removelast (a :: l) /\ fr' = fr /\
        sc' = sc /\ hs' = hs /\ w' = w))
  | Raise _ => False
  | OutOfFuel => True
  end.
Proof.
  unfold eat_or_pop.
  destruct (cell_eqb new_head fr) eqn:E.
  - apply cell_eqb_eq in E. unfold bind at 1.
    destruct (random_position fuel ((a :: l) ++ obs) w) as [fr' w1 | e |] eqn:R.
    + destruct (random_position_inv _ _ _ _ _ R) as (k & _ & _ & Hfree & _ & ->).
      unfold bind. rewrite commit_high_score_spec. unfold ret.
      apply cell_in_not_In in Hfree.
      split; [destruct (hs <? sc + 5); reflexivity |].
      left. repeat split; auto.
      destruct (hs <? sc + 5); reflexivity.
    + exact (random_position_no_raise _ _ _ _ R).
    + exact I.
  - apply cell_eqb_neq in E. cbn [list_pop]. unfold ret.
    split; [reflexivity |]. right. repeat split; auto.
Qed.

(** The two ways lines 157-160 end. *)
Lemma spawn_obstacle_inv (fuel : nat) (body : list Cell) (fr : Cell)
    (obs : list Cell) (last : Q) (w : World) :
  match spawn_obstacle fuel body fr obs last w with
  | Ok (obs', last') w' =>
      hs_file w' = hs_file w /\
      (((2 < clock_oracle (clock_calls w) - last)%Q /\
        (exists ob, obs' = obs ++ [ob] /\ ~ In ob (body ++ obs ++ [fr])) /\
        last' = clock_oracle (S (clock_calls w)) /\
        clock_calls w' = S (S (clock_calls w))) \/
       ((clock_oracle (clock_calls w) - last <= 2)%Q /\
        obs' = obs /\ last' = last /\
        clock_calls w' = S (clock_calls w)))
  | Raise _ => False
  | OutOfFuel => True
  end.
Proof.
  unfold spawn_obstacle, bind at 1, time_time.
  destruct (Qgtb (clock_oracle (clock_calls w) - last) 2) eqn:E.
  - apply Qgtb_true in E. unfold bind at 1.
    match goal with
    | |- context [random_position fuel ?ex ?w1] =>
        destruct (random_position fuel ex w1) as [ob w2 | e |] eqn:R
    end.
    + destruct (random_position_inv _ _ _ _ _ R) as (k & _ & _ & Hfree & _ & ->).
      apply cell_in_not_In in Hfree.
      unfold bind, ret. cbn.
      split; [reflexivity |]. left. repeat split; eauto.
    + exact (random_position_no_raise _ _ _ _ R).
    + exact I.
  - apply Qgtb_false in E. unfold ret. cbn.
    split; [reflexivity |]. right. repeat split; auto.
Qed.

(** What an iteration that does not end the run leaves behind: the snake
    has eaten or shifted, and an obstacle has been spawned or not. *)
Lemma loop_body_moving_inv (fuel : nat) (g : Game) (w : World) :
  snake g <> [] -> terminal_tick g = false ->
  match loop_body fuel g w with
  | Ok g' w' =>
      direction g' = tick_direction g /\ running g' = true /\
      ((tick_head g = fruit g /\ snake g' = tick_head g :: snake g /\
        score g' = score_after_check g + 5 /\
        high_score g' = Z.max (high_score g) (score g') /\
        ~ In (fruit g') (snake g' ++ obstacles_after_check g) /\
        hs_file w' = if high_score g <? score g'
                     then Some (py_str (score g')) else hs_file w) \/
       (tick_head g <> fruit g /\
        snake g' = removelast (tick_head g :: snake g) /\
        fruit g' = fruit g /\ score g' = score_after_check g /\
        high_score g' = high_score g /\ hs_file w' = hs_file w)) /\
      (((2 < clock_oracle (clock_calls w) - last_obstacle_time g)%Q /\
        (exists ob,
           obstacles g' = obstacles_after_check g ++ [ob] /\
           ~ In ob (snake g' ++ obstacles_after_check g ++ [fruit g'])) /\
        last_obstacle_time g' = clock_oracle (S (clock_calls w)) /\
        clock_calls w' = S (S (clock_calls w))) \/
       ((clock_oracle (clock_calls w) - last_obstacle_time g <= 2)%Q /\
        obstacles g' = obstacles_after_check g /\
        last_obstacle_time g' = last_obstacle_time g /\
        clock_calls w' = S (clock_calls w)))
  | Raise _ => False
  | OutOfFuel => True
  end.
Proof.
  intros Hne Hterm. rewrite (loop_body_moving fuel g w Hne Hterm).
  unfold bind at 1.
  pose proof (eat_or_pop_inv fuel (tick_head g) (tick_head g) (snake g)
                (fruit g) (obstacles_after_check g) (score_after_check g)
                (high_score g) w) as He.
  destruct (eat_or_pop _ _ _ _ _ _ _ w) as [[[[body' fr'] sc'] hs'] w1 | e |];
    [| exact He | exact I].
  destruct He as [Hclock He].
  unfold bind at 1.
  pose proof (spawn_obstacle_inv fuel body' fr' (obstacles_after_check g)
                (last_obstacle_time g) w1) as Hs.
  destruct (spawn_obstacle _ _ _ _ _ w1) as [[obs' last'] w2 | e |];
    [| exact Hs | exact I].
  destruct Hs as [Hfile Hs]. rewrite Hclock in Hs.
  unfold ret. cbn [direction running snake fruit score high_score obstacles
                   last_obstacle_time fst snd].
  split; [reflexivity |]. split; [reflexivity |]. split.
  - destruct He as [(E1 & E2 & E3 & E4 & E5 & E6) | (E1 & E2 & E3 & E4 & E5 & E6)];
      subst; [left | right]; rewrite Hfile; repeat split; auto.
  - exact Hs.
Qed.

Lemma obstacles_after_check_hit (g : Game) :
  cell_in (tick_head g) (obstacles g) = true ->
  exists l1 l2,
    obstacles g = l1 ++ tick_head g :: l2 /\ ~ In (tick_head g) l1 /\
    obstacles_after_check g = l1 ++ l2.
Proof.
  intros H. unfold obstacles_after_check. rewrite H.
  destruct (list_remove_spec _ _ H) as (l1 & l2 & E & Hn & ->).
  exists l1, l2. auto.
Qed.

Lemma obstacles_after_check_miss (g : Game) :
  cell_in (tick_head g) (obstacles g) = false ->
  obstacles_after_check g = obstacles g.
Proof. intros H. unfold obstacles_after_check. rewrite H. reflexivity. Qed.

Lemma obstacles_after_check_incl (g : Game) (c : Cell) :
  In c (obstacles_after_check g) -> In c (obstacles g).
Proof.
  destruct (cell_in (tick_head g) (obstacles g)) eqn:E.
  - destruct (obstacles_after_check_hit g E) as (l1 & l2 & -> & _ & ->).
    rewrite !in_app_iff. simpl. tauto.
  - rewrite (obstacles_after_check_miss g E). auto.
Qed.

Lemma terminal_tick_false (g : Game) :
  terminal_tick g = false ->
  ~ In (tick_head g) (snake g) /\ in_bounds (tick_head g) = true.
Proof.
  unfold terminal_tick, hits_wall_or_self, in_bounds.
  rewrite !orb_false_iff. intros ((((H1 & H2) & H3) & H4) & H5).
  split; [apply cell_in_not_In; assumption |].
  rewrite !andb_true_iff. lia.
Qed.

Lemma terminal_tick_true (g : Game) :
  terminal_tick g = true <->
  In (tick_head g) (snake g) \/ in_bounds (tick_head g) = false.
Proof.
  rewrite <- cell_in_In.
  unfold terminal_tick, hits_wall_or_self, in_bounds.
  destruct (cell_in (tick_head g) (snake g)); [tauto |].
  cbn [orb]. rewrite !orb_true_iff, !andb_false_iff.
  rewrite !Z.ltb_lt, !Z.leb_le, !Z.leb_gt, !Z.ltb_ge.
  split; [intros H; right; lia | intros [H | H]; [discriminate | lia]].
Qed.

(** ** Invariants of a run *)

Lemma main_init_spec (fuel : nat) (w0 : World) (g : Game) (w : World) :
  main_init fuel w0 = Ok g w ->
  snake g = [(WIDTH / 2, HEIGHT / 2)] /\ direction g = RIGHT /\
  ~ In (fruit g) (snake g) /\ obstacles g = [] /\
  last_obstacle_time g = clock_oracle (clock_calls w0) /\
  score g = 0 /\ running g = true /\
  load_high_score w = Ok (high_score g) w /\
  clock_calls w = S (clock_calls w0).
Proof.
  unfold main_init, bind at 1.
  destruct (random_position fuel _ w0) as [fr w1 | e |] eqn:R; try discriminate.
  destruct (random_position_inv _ _ _ _ _ R) as (k & _ & _ & Hfree & _ & ->).
  apply cell_in_not_In in Hfree.
  unfold bind, time_time, load_high_score, ret. cbn [hs_file after_draws].
  destruct (hs_file w0) as [content |].
  - destruct (strip content) as [|a s0] eqn:Es.
    + intros H. inversion H; subst. cbn. rewrite Es. repeat split; auto.
    + destruct (py_int (String a s0)) eqn:Ei; [| discriminate].
      intros H. inversion H; subst. cbn. rewrite Es, Ei. repeat split; auto.
  - intros H. inversion H; subst. cbn. repeat split; auto.
Qed.

Lemma loop_body_preserves (fuel : nat) (g : Game) (w : World) (g' : Game)
    (w' : World) :
  Inv g -> loop_body fuel g w = Ok g' w' -> Inv g'.
Proof.
  intros (Hne & Hnd & Hfo & Hsc) H.
  destruct (terminal_tick g) eqn:T.
  - rewrite (loop_body_terminal fuel g w Hne T) in H.
    inversion H; subst. unfold Inv, stopped. cbn. auto.
  - pose proof (loop_body_moving_inv fuel g w Hne T) as P. rewrite H in P.
    destruct P as (_ & _ & Hmove & Hspawn).
    destruct (terminal_tick_false g T) as [Hself _].
    assert (0 <= score_after_check g) as Hsc'.
    { unfold score_after_check. destruct (cell_in _ _); lia. }
    assert (NoDup (tick_head g :: snake g)) as Hnd' by (constructor; auto).
    assert (~ In (fruit g') (obstacles_after_check g) /\ snake g' <> [] /\
            NoDup (snake g') /\ 0 <= score g') as (Hf & Hne' & Hnd'' & Hsc'').
    { destruct Hmove as [(E1 & E2 & E3 & E4 & E5 & _) | (E1 & E2 & E3 & E4 & _)].
      - rewrite E2, E3. repeat split; auto; try lia; try discriminate.
        intros Hin. apply E5. apply in_or_app. auto.
      - rewrite E2, E3, E4. repeat split; auto.
        + intros Hin. apply Hfo. apply obstacles_after_check_incl. assumption.
        + destruct (snake g); [congruence |].
          rewrite removelast_cons_cons. discriminate.
        + apply removelast_NoDup. assumption. }
    unfold Inv. repeat split; auto.
    destruct Hspawn as [(_ & (ob & -> & Hob) & _) | (_ & -> & _)]; auto.
    rewrite in_app_iff. intros [Hin | [E | []]]; auto.
    apply Hob. rewrite !in_app_iff. simpl. auto.
Qed.

Lemma run_from_preserves (fuel : nat) (g : Game) (w : World) (g' : Game)
    (w' : World) :
  run_from fuel g w g' w' -> Inv g -> Inv g'.
Proof.
  induction 1 as [| g1 w1 g2 w2 _ IH _ Hstep]; intros HI; auto.
  exact (loop_body_preserves fuel g1 w1 g2 w2 (IH HI) Hstep).
Qed.

Lemma reachable_inv (g : Game) (w : World) : reachable g w -> Inv g.
Proof.
  intros (fuel & w0 & g0 & w1 & Hinit & Hrun).
  apply (run_from_preserves _ _ _ _ _ Hrun).
  destruct (main_init_spec _ _ _ _ Hinit)
    as (Hs & _ & _ & Ho & _ & Hsc & _).
  unfold Inv. rewrite Hs, Ho, Hsc. repeat split; try discriminate; try lia.
  - repeat constructor. intros [].
  - intros [].
Qed.

(** ** The iterations of the loop, claim by claim *)

(** C2: on an iteration whose candidate head (the head moved by the
    heading the controller has just set) is on the snake or outside the
    screen, the loop body only clears [running]: snake, fruit, obstacles,
    score and high score are those of the state before, the world (random
    source, clock, high-score file) is untouched, and the [while running]
    loop returns that state at once, whatever the iteration budget. *)
Theorem terminal_tick_stops (fuel : nat) (g : Game) (w : World) :
  snake g <> [] -> running g = true ->
  In (tick_head g) (snake g) \/ in_bounds (tick_head g) = false ->
  exists g',
    loop_body fuel g w = Ok g' w /\
    running g' = false /\
    snake g' = snake g /\ fruit g' = fruit g /\
    obstacles g' = obstacles g /\ score g' = score g /\
    high_score g' = high_score g /\
    last_obstacle_time g' = last_obstacle_time g /\
    forall ticks, while_running (S ticks) fuel g w = Ok g' w.
Proof.
  intros Hne Hrun Hterm. apply terminal_tick_true in Hterm.
  exists (stopped g).
  pose proof (loop_body_terminal fuel g w Hne Hterm) as Hb.
  repeat split; auto.
  intros ticks. cbn [while_running]. rewrite Hrun. unfold bind.
  rewrite Hb. destruct ticks; reflexivity.
Qed.

(** C4: at a tick boundary of a run, when the candidate head passes the
    collision test and lies on an obstacle, the iteration raises nothing
    and, once complete, leaves the run going with score
    [max 0 (score - 3)], the snake moved onto the cell without growing,
    and the obstacle list with that one entry taken out (and at most one
    freshly spawned obstacle appended by the cadence step). *)
Theorem obstacle_hit_penalty (fuel : nat) (g : Game) (w : World) :
  reachable g w -> terminal_tick g = false ->
  cell_in (tick_head g) (obstacles g) = true ->
  match loop_body fuel g w with
  | Ok g' w' =>
      running g' = true /\
      score g' = Z.max 0 (score g - 3) /\
      snake g' = tick_head g :: removelast (snake g) /\
      exists l1 l2 spawned,
        obstacles g = l1 ++ tick_head g :: l2 /\ ~ In (tick_head g) l1 /\
        obstacles g' = l1 ++ l2 ++ spawned /\
        (List.length spawned <= 1)%nat
  | Raise _ => False
  | OutOfFuel => True
  end.
Proof.
  intros Hreach Hterm Hhit.
  destruct (reachable_inv g w Hreach) as (Hne & _ & Hfo & _).
  pose proof (loop_body_moving_inv fuel g w Hne Hterm) as P.
  destruct (loop_body fuel g w) as [g' w' | e |]; auto.
  destruct P as (_ & Hrun & Hmove & Hspawn).
  assert (tick_head g <> fruit g) as Hnf.
  { intros E. apply Hfo. rewrite <- E. apply cell_in_In. assumption. }
  destruct Hmove as [(E1 & _) | (_ & E2 & _ & E4 & _)]; [contradiction |].
  unfold score_after_check in E4. rewrite Hhit in E4.
  rewrite (removelast_cons_nonempty _ _ Hne) in E2.
  repeat split; auto.
  destruct (obstacles_after_check_hit g Hhit) as (l1 & l2 & Eo & Hn & Ea).
  exists l1, l2.
  destruct Hspawn as [(_ & (ob & Hob & _) & _) | (_ & Hob & _)].
  - exists [ob]. rewrite Hob, Ea, <- app_assoc. auto.
  - exists []. rewrite Hob, Ea, app_nil_r. auto.
Qed.

(** C6: at a tick boundary of a run, an iteration that does not end the run
    raises nothing and, once complete, has either eaten (candidate head on
    the fruit: the head is prepended, the tail kept, the length is one
    more and the score five more) or shifted (any other candidate head,
    obstacle or not: the head is prepended, the tail dropped and the
    length is unchanged). *)
Theorem snake_grows_only_on_food (fuel : nat) (g : Game) (w : World) :
  reachable g w -> terminal_tick g = false ->
  match loop_body fuel g w with
  | Ok g' w' =>
      (tick_head g = fruit g ->
       snake g' = tick_head g :: snake g /\
       List.length (snake g') = S (List.length (snake g)) /\
       score g' = score g + 5) /\
      (tick_head g <> fruit g ->
       snake g' = tick_head g :: removelast (snake g) /\
       List.length (snake g') = List.length (snake g) /\
       score g' = if cell_in (tick_head g) (obstacles g)
                  then Z.max 0 (score g - 3) else score g)
  | Raise _ => False
  | OutOfFuel => True
  end.
Proof.
  intros Hreach Hterm.
  destruct (reachable_inv g w Hreach) as (Hne & _ & Hfo & _).
  pose proof (loop_body_moving_inv fuel g w Hne Hterm) as P.
  destruct (loop_body fuel g w) as [g' w' | e |]; auto.
  destruct P as (_ & _ & Hmove & _).
  destruct Hmove as [(E1 & E2 & E3 & _) | (E1 & E2 & _ & E4 & _)].
  - split; [intros _ | intros Hn; contradiction].
    rewrite E2. repeat split; auto.
    rewrite E3. unfold score_after_check.
    destruct (cell_in (tick_head g) (obstacles g)) eqn:Hhit; auto.
    exfalso. apply Hfo. rewrite <- E1. apply cell_in_In. assumption.
  - split; [intros E; contradiction | intros _].
    rewrite E2, E4. repeat split.
    + apply removelast_cons_nonempty. assumption.
    + apply removelast_cons_length.
Qed.

(** C7: at every tick boundary of a run started by [main] the snake holds
    no cell twice. *)
Theorem snake_never_self_intersects (g : Game) (w : World) :
  reachable g w -> NoDup (snake g).
Proof. intros H. apply (reachable_inv g w H). Qed.

(** C8: on an iteration that eats the fruit, the iteration raises nothing
    and, once complete, the new fruit is neither on the snake, new head
    included, nor on an obstacle: neither on those active when the fruit is
    placed nor on those of the state the iteration leaves. *)
Theorem relocated_fruit_is_free (fuel : nat) (g : Game) (w : World) :
  snake g <> [] -> terminal_tick g = false -> tick_head g = fruit g ->
  match loop_body fuel g w with
  | Ok g' w' =>
      In (tick_head g) (snake g') /\
      ~ In (fruit g') (snake g') /\
      ~ In (fruit g') (obstacles_after_check g) /\
      ~ In (fruit g') (obstacles g')
  | Raise _ => False
  | OutOfFuel => True
  end.
Proof.
  intros Hne Hterm Heat.
  pose proof (loop_body_moving_inv fuel g w Hne Hterm) as P.
  destruct (loop_body fuel g w) as [g' w' | e |]; auto.
  destruct P as (_ & _ & Hmove & Hspawn).
  destruct Hmove as [(_ & E2 & _ & _ & E5 & _) | (E1 & _)]; [| contradiction].
  rewrite in_app_iff in E5.
  assert (~ In (fruit g') (obstacles_after_check g)) as Hfo by tauto.
  repeat split; auto.
  - rewrite E2. left. reflexivity.
  - destruct Hspawn as [(_ & (ob & -> & Hob) & _) | (_ & -> & _)]; auto.
    rewrite in_app_iff. intros [Hin | [E | []]]; auto.
    apply Hob. rewrite !in_app_iff. simpl. auto.
Qed.

(** C10: for a non-empty snake the controller returns one of the four
    direction tuples without drawing from the random source (the world is
    returned as it was, so [random.choice] is not called); the scan of a
    non-empty list of valid moves always ends with [best_move] assigned to
    a truthy tuple; and every iteration of the loop leaves in [direction]
    the controller's answer, never the heading of the state before. *)
Theorem controller_always_answers (head : Cell) (tl : list Cell)
    (food : Cell) (obs : list Cell) (w : World) :
  exists d,
    get_direction_to_food (head :: tl) food obs w = Ok d w /\
    In d all_directions /\ tuple_truthy d = true /\
    (forall a l,
       exists move,
         fst (scan_moves head food (a :: l)) = Some move /\
         tuple_truthy move = true) /\
    (forall fuel dir last sc hs run w1,
       match loop_body fuel (mkGame (head :: tl) dir food obs last sc hs run) w1
       with
       | Ok g' _ => direction g' = d
       | Raise _ => False
       | OutOfFuel => True
       end).
Proof.
  exists (chosen_direction head tl food obs).
  split; [apply get_direction_to_food_pure |].
  split; [apply chosen_direction_in |].
  split; [reflexivity |]. split.
  - intros a l. destruct (scan_moves_some head food a l) as (m & Hm & _).
    exists m. split; [assumption | reflexivity].
  - intros fuel dir last sc hs run w1.
    set (g := mkGame (head :: tl) dir food obs last sc hs run).
    assert (snake g <> []) as Hne by discriminate.
    destruct (terminal_tick g) eqn:T.
    + rewrite (loop_body_terminal fuel g w1 Hne T). reflexivity.
    + pose proof (loop_body_moving_inv fuel g w1 Hne T) as P.
      destruct (loop_body fuel g w1) as [g' w' | e |]; auto.
      destruct P as (Hd & _). exact Hd.
Qed.

(** ** The high-score file *)

Lemma lstrip_no_space (s : string) : no_space s = true -> lstrip s = s.
Proof.
  destruct s as [|a s]; [reflexivity |]. cbn [no_space lstrip].
  rewrite andb_true_iff, negb_true_iff. intros [-> _]. reflexivity.
Qed.

Lemma rstrip_no_space (s : string) : no_space s = true -> rstrip s = s.
Proof.
  induction s as [|a s IH]; [reflexivity |]. cbn [no_space rstrip].
  rewrite andb_true_iff, negb_true_iff. intros [Ha Hs].
  rewrite (IH Hs), Ha. destruct s; reflexivity.
Qed.

Lemma digits_no_space (d : Decimal.uint) :
  no_space (NilEmpty.string_of_uint d) = true.
Proof. induction d; cbn [NilEmpty.string_of_uint no_space]; auto. Qed.

Lemma py_str_no_space (n : Z) : no_space (py_str n) = true.
Proof.
  unfold py_str, NilZero.string_of_int, NilZero.string_of_uint.
  destruct (Z.to_int n) as [d | d]; destruct d; try reflexivity;
    try match goal with
        | |- no_space (String _ ?s) = true => change (no_space s = true)
        end;
    apply digits_no_space.
Qed.

Lemma strip_py_str (n : Z) : strip (py_str n) = py_str n.
Proof.
  unfold strip. rewrite (lstrip_no_space _ (py_str_no_space n)).
  apply rstrip_no_space, py_str_no_space.
Qed.

(** [int(str(n)) == n] *)
Lemma py_int_py_str (n : Z) : py_int (py_str n) = Some n.
Proof.
  unfold py_int, py_str. rewrite NilZero.isi.
  - cbn [option_map]. rewrite DecimalZ.of_to. reflexivity.
  - destruct n; cbn [Z.to_int]; try discriminate.
    intros E. inversion E as [E']. exact (Unsigned.to_uint_nonnil _ E').
  - destruct n; cbn [Z.to_int]; try discriminate.
    intros E. inversion E as [E']. exact (Unsigned.to_uint_nonnil _ E').
Qed.

(** Reading back what [save_high_score] wrote. *)
Lemma load_after_save (n : Z) (r c : nat) :
  load_high_score (mkWorld r c (Some (py_str n))) =
  Ok n (mkWorld r c (Some (py_str n))).
Proof.
  unfold load_high_score. cbn [hs_file]. rewrite strip_py_str.
  pose proof (py_int_py_str n) as E.
  destruct (py_str n) as [|a s']; [discriminate |].
  rewrite E. reflexivity.
Qed.


(** C3: with the in-memory high score equal to the stored one (as it is
    from start-up on), lines 151-153 write the candidate only when it is
    strictly greater: afterwards the file reads back as the maximum of the
    two, and it is left untouched by a candidate that is not greater.  In
    particular, from a stored value below 12, committing 12 makes the file
    read 12, and committing 5 after that changes nothing. *)
Theorem high_score_commit (w : World) (hs : Z) :
  load_high_score w = Ok hs w ->
  (forall cand,
     exists w',
       commit_high_score cand hs w = Ok (Z.max hs cand) w' /\
       load_high_score w' = Ok (Z.max hs cand) w' /\
       (cand <= hs -> w' = w) /\
       (hs < cand -> hs_file w' = Some (py_str cand))) /\
  (hs < 12 ->
   exists w1,
     commit_high_score 12 hs w = Ok 12 w1 /\
     load_high_score w1 = Ok 12 w1 /\
     hs_file w1 = Some "12"%string /\
     commit_high_score 5 12 w1 = Ok 12 w1).
Proof.
  intros Hload. split.
  - intros cand. rewrite commit_high_score_spec.
    destruct (Z.ltb_spec hs cand) as [Hlt | Hge].
    + eexists. split; [reflexivity |].
      replace (Z.max hs cand) with cand by lia.
      split; [apply load_after_save |]. split; [lia | reflexivity].
    + exists w. replace (Z.max hs cand) with hs by lia.
      repeat split; auto. lia.
  - intros Hlt. rewrite commit_high_score_spec.
    destruct (Z.ltb_spec hs 12) as [_ | Hge]; [| lia].
    eexists. split; [f_equal; lia |].
    split; [apply (load_after_save 12) |].
    split; reflexivity.
Qed.

(** ** Termination of the sampling loop *)

Lemma in_grid_cells (c : Cell) :
  In c grid_cells <->
  exists i j,
    0 <= i < WIDTH / CELL_SIZE /\ 0 <= j < HEIGHT / CELL_SIZE /\
    c = (i * CELL_SIZE, j * CELL_SIZE).
Proof.
  unfold grid_cells. rewrite in_flat_map. split.
  - intros (i & Hi & Hc). apply in_map_iff in Hc.
    destruct Hc as (j & <- & Hj). apply in_seq in Hi. apply in_seq in Hj.
    exists (Z.of_nat i), (Z.of_nat j).
    change (WIDTH / CELL_SIZE) with 30 in *.
    change (HEIGHT / CELL_SIZE) with 20 in *.
    change (Z.to_nat 30) with 30%nat in Hi.
    change (Z.to_nat 20) with 20%nat in Hj.
    repeat split; lia.
  - intros (i & j & Hi & Hj & ->).
    exists (Z.to_nat i). split.
    + apply in_seq. lia.
    + apply in_map_iff. exists (Z.to_nat j). split.
      * rewrite !Z2Nat.id by lia. reflexivity.
      * apply in_seq. lia.
Qed.

Lemma grid_cells_in_bounds (c : Cell) :
  In c grid_cells -> in_bounds c = true.
Proof.
  intros H. apply in_grid_cells in H.
  destruct H as (i & j & Hi & Hj & ->).
  change (WIDTH / CELL_SIZE) with 30 in *.
  change (HEIGHT / CELL_SIZE) with 20 in *.
  unfold in_bounds, WIDTH, HEIGHT, CELL_SIZE. cbn [fst snd].
  rewrite !andb_true_iff. repeat split; lia.
Qed.

Lemma draw_in_grid (c : nat) : randint_in_range -> In (draw c) grid_cells.
Proof.
  intros Hr. apply in_grid_cells. unfold draw.
  change (WIDTH / CELL_SIZE) with 30 in *.
  change (HEIGHT / CELL_SIZE) with 20 in *.
  pose proof (Hr c 0 (30 - 1) ltac:(lia)).
  pose proof (Hr (S c) 0 (20 - 1) ltac:(lia)).
  eexists _, _. split; [| split; [| reflexivity]]; lia.
Qed.

Lemma random_position_full_grid (exclude : list Cell) :
  randint_in_range ->
  (forall c, In c grid_cells -> cell_in c exclude = true) ->
  forall fuel w, random_position fuel exclude w = OutOfFuel.
Proof.
  intros Hr Hfull fuel.
  induction fuel as [|fuel IH]; intros w; [reflexivity |].
  rewrite random_position_step.
  rewrite (Hfull _ (draw_in_grid (rng_calls w) Hr)). apply IH.
Qed.

(** C9: with [random.randint] answering within its bounds and a random
    source that draws every cell of the grid at some round, the sampling
    loop started on an exclude list that leaves a grid cell free returns
    after finitely many rounds (every larger round budget gives the same
    result), and the cell returned is a grid cell, inside the screen and
    not excluded; the loop never raises; and it keeps sampling for ever
    exactly when every grid cell is excluded. *)
Theorem random_position_terminates (exclude : list Cell) (w : World) :
  randint_in_range -> fair_from (rng_calls w) ->
  ((exists c, In c grid_cells /\ cell_in c exclude = false) ->
   exists p w' fuel0,
     (forall fuel, (fuel0 <= fuel)%nat ->
                   random_position fuel exclude w = Ok p w') /\
     In p grid_cells /\ in_bounds p = true /\ cell_in p exclude = false) /\
  ((forall fuel, random_position fuel exclude w = OutOfFuel) <->
   (forall c, In c grid_cells -> cell_in c exclude = true)) /\
  (forall fuel e, random_position fuel exclude w <> Raise e).
Proof.
  intros Hr Hfair.
  assert (forall c, In c grid_cells -> cell_in c exclude = false ->
          exists k p w', random_position (S k) exclude w = Ok p w') as Hhit.
  { intros c Hc Hfree. destruct (Hfair c Hc) as (k & Hk).
    exists k. apply random_position_hits. rewrite Hk. assumption. }
  split; [| split].
  - intros (c & Hc & Hfree).
    destruct (Hhit c Hc Hfree) as (k & p & w' & Hres).
    exists p, w', (S k). split.
    + intros fuel Hle. replace fuel with (S k + (fuel - S k))%nat by lia.
      apply random_position_more_fuel. assumption.
    + destruct (random_position_inv _ _ _ _ _ Hres)
        as (k' & _ & -> & Hp & _).
      pose proof (draw_in_grid (rng_calls w + 2 * k') Hr) as Hg.
      repeat split; auto. apply grid_cells_in_bounds. assumption.
  - split.
    + intros Hloop c Hc.
      destruct (cell_in c exclude) eqn:Hfree; [reflexivity |].
      destruct (Hhit c Hc Hfree) as (k & p & w' & Hres).
      rewrite Hloop in Hres. discriminate.
    + intros Hfull fuel. apply random_position_full_grid; assumption.
  - intros fuel e. apply random_position_no_raise.
Qed.

(** ** The obstacle cadence *)




(** ** Runs of [main] *)

Lemma run_from_step_left (fuel : nat) (g : Game) (w : World) (g1 : Game)
    (w1 : World) (g' : Game) (w' : World) :
  running g = true -> loop_body fuel g w = Ok g1 w1 ->
  run_from fuel g1 w1 g' w' -> run_from fuel g w g' w'.
Proof.
  intros Hr Hs Hrun.
  induction Hrun as [| g2 w2 g3 w3 _ IH Hr2 Hs2].
  - eapply run_tick; [apply run_here | assumption | assumption].
  - eapply run_tick; [exact IH | assumption | assumption].
Qed.

Lemma run_ticks_run_from (fuel n : nat) :
  forall g w g' w',
    run_ticks n fuel g w = Ok g' w' -> run_from fuel g w g' w'.
Proof.
  induction n as [|n IH]; intros g w g' w' H; cbn [run_ticks] in H.
  - inversion H. apply run_here.
  - destruct (running g) eqn:Hr.
    + unfold bind in H.
      destruct (loop_body fuel g w) as [g1 w1 | e |] eqn:Hs; try discriminate.
      eapply run_from_step_left; eauto.
    + inversion H. apply run_here.
Qed.

Lemma main_ticks_reachable (n fuel : nat) (w0 : World) (g : Game) (w : World) :
  main_ticks n fuel w0 = Ok g w -> reachable g w.
Proof.
  unfold main_ticks, bind. intros H.
  destruct (main_init fuel w0) as [g0 w1 | e |] eqn:Hi; try discriminate.
  exists fuel, w0, g0, w1. split; [assumption |].
  apply run_ticks_run_from with (n := n). assumption.
Qed.

(** The state [main] ends in is a tick boundary of the run, with [running]
    cleared. *)
Lemma while_running_run_from (fuel ticks : nat) :
  forall g w g' w',
    while_running ticks fuel g w = Ok g' w' ->
    run_from fuel g w g' w' /\ running g' = false.
Proof.
  induction ticks as [|ticks IH]; intros g w g' w' H; cbn [while_running] in H.
  - destruct (running g) eqn:Hr; [discriminate |].
    inversion H; subst. split; [apply run_here | assumption].
  - destruct (running g) eqn:Hr.
    + unfold bind in H.
      destruct (loop_body fuel g w) as [g1 w1 | e |] eqn:Hs; try discriminate.
      destruct (IH _ _ _ _ H) as [Hrun Hstop].
      split; [| assumption]. eapply run_from_step_left; eauto.
    + inversion H; subst. split; [apply run_here | assumption].
Qed.

Lemma main_reachable (ticks fuel : nat) (w0 : World) (g : Game) (w : World) :
  main ticks fuel w0 = Ok g w -> reachable g w /\ running g = false.
Proof.
  unfold main, bind. intros H.
  destruct (main_init fuel w0) as [g0 w1 | e |] eqn:Hi; try discriminate.
  destruct (while_running_run_from _ _ _ _ _ _ H) as [Hrun Hstop].
  split; [| assumption]. exists fuel, w0, g0, w1. auto.
Qed.

(** ** Iterations complete

    With a fair random source and room left on the grid, every sampling
    loop of an iteration returns, so that a large enough round budget lets
    the iteration run to its end. *)

Lemma nodupb_NoDup (l : list Cell) : nodupb l = true -> NoDup l.
Proof.
  induction l as [|a l IH]; cbn [nodupb]; [constructor |].
  rewrite andb_true_iff, negb_true_iff. intros [Ha Hl].
  constructor; [apply cell_in_not_In; assumption | auto].
Qed.

Lemma grid_cells_NoDup : NoDup grid_cells.
Proof. apply nodupb_NoDup. vm_compute. reflexivity. Qed.

Lemma forallb_false_exists {A} (f : A -> bool) (l : list A) :
  forallb f l = false -> exists x, In x l /\ f x = false.
Proof.
  induction l as [|a l IH]; cbn [forallb]; [discriminate |].
  destruct (f a) eqn:E.
  - intros H. destruct (IH H) as (x & Hx & Hf). exists x. simpl. auto.
  - intros _. exists a. simpl. auto.
Qed.

(** Fewer excluded cells than grid cells leave a grid cell free. *)
Lemma free_cell_exists (exclude : list Cell) :
  (List.length exclude < 600)%nat ->
  exists c, In c grid_cells /\ cell_in c exclude = false.
Proof.
  intros Hlen.
  destruct (forallb (fun c => cell_in c exclude) grid_cells) eqn:E.
  - exfalso. rewrite forallb_forall in E.
    assert (incl grid_cells exclude) as Hincl.
    { intros c Hc. apply cell_in_In. auto. }
    pose proof (NoDup_incl_length grid_cells_NoDup Hincl) as Hle.
    change (List.length grid_cells) with 600%nat in Hle. lia.
  - apply forallb_false_exists in E. exact E.
Qed.

Lemma random_position_completes (exclude : list Cell) (w : World) :
  randint_in_range -> fair -> Nat.even (rng_calls w) = true ->
  (List.length exclude < 600)%nat ->
  exists p w' fuel0,
    Nat.even (rng_calls w') = true /\
    forall fuel, (fuel0 <= fuel)%nat ->
                 random_position fuel exclude w = Ok p w'.
Proof.
  intros Hr Hfair Heven Hlen.
  destruct (free_cell_exists exclude Hlen) as (c & Hc & Hfree).
  assert (fair_from (rng_calls w)) as Hf.
  { rewrite (Nat.div2_odd (rng_calls w)).
    unfold Nat.odd. rewrite Heven. cbn [negb Nat.b2n].
    rewrite Nat.add_0_r. apply Hfair. }
  destruct (Hf c Hc) as (k & Hk).
  destruct (random_position_hits exclude k w) as (p & w' & Hres).
  { rewrite Hk. assumption. }
  exists p, w', (S k). split.
  - destruct (random_position_inv _ _ _ _ _ Hres) as (k' & _ & _ & _ & _ & ->).
    cbn [after_draws rng_calls]. rewrite Nat.even_add_mul_2. assumption.
  - intros fuel Hle. replace fuel with (S k + (fuel - S k))%nat by lia.
    apply random_position_more_fuel. assumption.
Qed.

Lemma obstacles_after_check_length (g : Game) :
  (List.length (obstacles_after_check g) <= List.length (obstacles g))%nat.
Proof.
  destruct (cell_in (tick_head g) (obstacles g)) eqn:E.
  - destruct (obstacles_after_check_hit g E) as (l1 & l2 & -> & _ & ->).
    rewrite !length_app. simpl. lia.
  - rewrite (obstacles_after_check_miss g E). lia.
Qed.

Lemma loop_body_completes (g : Game) (w : World) :
  randint_in_range -> fair -> Nat.even (rng_calls w) = true ->
  snake g <> [] ->
  (List.length (snake g) + List.length (obstacles g) + 2 < 600)%nat ->
  exists g' w' fuel0,
    Nat.even (rng_calls w') = true /\
    forall fuel, (fuel0 <= fuel)%nat -> loop_body fuel g w = Ok g' w'.
Proof.
  intros Hr Hfair Heven Hne Hlen.
  destruct (terminal_tick g) eqn:T.
  { exists (stopped g), w, O. split; [assumption |].
    intros fuel _. apply loop_body_terminal; assumption. }
  pose proof (obstacles_after_check_length g) as Hoac.
  (* the fruit *)
  assert (exists r w1 fuel1,
            Nat.even (rng_calls w1) = true /\
            (List.length (fst (fst (fst r))) <= S (List.length (snake g)))%nat /\
            forall fuel, (fuel1 <= fuel)%nat ->
              eat_or_pop fuel (tick_head g) (tick_head g :: snake g) (fruit g)
                (obstacles_after_check g) (score_after_check g)
                (high_score g) w = Ok r w1)
    as (r & w1 & fuel1 & Heven1 & Hlen1 & Heat).
  { unfold eat_or_pop. destruct (cell_eqb (tick_head g) (fruit g)).
    - destruct (random_position_completes
                  ((tick_head g :: snake g) ++ obstacles_after_check g) w
                  Hr Hfair Heven) as (fr' & w1 & fuel1 & Heven1 & Hres).
      { rewrite length_app. cbn [List.length]. lia. }
      exists (tick_head g :: snake g, fr', score_after_check g + 5,
              Z.max (high_score g) (score_after_check g + 5)).
      exists (if high_score g <? score_after_check g + 5
              then mkWorld (rng_calls w1) (clock_calls w1)
                           (Some (py_str (score_after_check g + 5)))
              else w1).
      exists fuel1. split; [| split].
      + destruct (high_score g <? score_after_check g + 5); assumption.
      + cbn [fst List.length]. lia.
      + intros fuel Hle. unfold bind at 1. rewrite (Hres fuel Hle).
        unfold bind. rewrite commit_high_score_spec. reflexivity.
    - cbn [list_pop].
      exists (removelast (tick_head g :: snake g), fruit g,
              score_after_check g, high_score g), w, O.
      split; [assumption |]. split; [| intros fuel _; reflexivity].
      cbn [fst]. rewrite removelast_cons_length. lia. }
  destruct r as [[[body' fr'] sc'] hs']. cbn [fst] in Hlen1.
  (* the obstacle *)
  assert (exists ol w2 fuel2,
            Nat.even (rng_calls w2) = true /\
            forall fuel, (fuel2 <= fuel)%nat ->
              spawn_obstacle fuel body' fr' (obstacles_after_check g)
                (last_obstacle_time g) w1 = Ok ol w2)
    as (ol & w2 & fuel2 & Heven2 & Hspawn).
  { unfold spawn_obstacle, bind at 1, time_time.
    destruct (Qgtb _ 2).
    - destruct (random_position_completes
                  (body' ++ obstacles_after_check g ++ [fr'])
                  (mkWorld (rng_calls w1) (S (clock_calls w1)) (hs_file w1))
                  Hr Hfair Heven1)
        as (ob & w2 & fuel2 & Heven2 & Hres).
      { rewrite !length_app. cbn [List.length]. lia. }
      exists (obstacles_after_check g ++ [ob], clock_oracle (clock_calls w2)).
      exists (mkWorld (rng_calls w2) (S (clock_calls w2)) (hs_file w2)).
      exists fuel2. split; [exact Heven2 |].
      intros fuel Hle. unfold bind at 1. rewrite (Hres fuel Hle).
      reflexivity.
    - exists (obstacles_after_check g, last_obstacle_time g).
      exists (mkWorld (rng_calls w1) (S (clock_calls w1)) (hs_file w1)).
      exists O. split; [exact Heven1 | intros fuel _; reflexivity]. }
  eexists _, w2, (Nat.max fuel1 fuel2). split; [assumption |].
  intros fuel Hle. rewrite (loop_body_moving fuel g w Hne T).
  unfold bind at 1. rewrite (Heat fuel ltac:(lia)).
  unfold bind at 1. rewrite (Hspawn fuel ltac:(lia)). reflexivity.
Qed.

(** ** How many draws keep the sampling loop going *)

(** The loop is still sampling after [n] rounds exactly when the [n] cells
    drawn are all excluded. *)
Lemma random_position_still_sampling (exclude : list Cell) (cells : list Cell) :
  forall w,
    (forall j, (j < List.length cells)%nat ->
               draw (rng_calls w + 2 * j) = nth j cells (0, 0)) ->
    (random_position (List.length cells) exclude w = OutOfFuel <->
     all_excluded exclude cells = true).
Proof.
  induction cells as [|c cells IH]; intros w Hdraw.
  - split; reflexivity.
  - cbn [List.length all_excluded forallb]. rewrite random_position_step.
    pose proof (Hdraw O ltac:(cbn; lia)) as H0.
    rewrite Nat.mul_0_r, Nat.add_0_r in H0. cbn [nth] in H0. rewrite H0.
    destruct (cell_in c exclude); cbn [andb].
    + apply IH. intros j Hj. cbn [after_draws rng_calls].
      replace (rng_calls w + 2 * 1 + 2 * j)%nat
        with (rng_calls w + 2 * S j)%nat by lia.
      apply (Hdraw (S j)). cbn. lia.
    + split; discriminate.
Qed.

Lemma filter_flat_map_length {A B} (P : B -> bool) (f : A -> list B)
    (l : list A) :
  List.length (filter P (flat_map f l)) =
  list_sum (map (fun a => List.length (filter P (f a))) l).
Proof.
  induction l as [|a l IH]; [reflexivity |].
  cbn [flat_map map list_sum]. rewrite filter_app, length_app, IH.
  reflexivity.
Qed.

Lemma flat_map_length_const {A B} (f : A -> list B) (m : nat) (l : list A) :
  (forall a, List.length (f a) = m) ->
  List.length (flat_map f l) = (List.length l * m)%nat.
Proof.
  intros H. induction l as [|a l IH]; [reflexivity |].
  cbn [flat_map List.length]. rewrite length_app, H, IH. lia.
Qed.

Lemma list_sum_indicator {A} (P : A -> bool) (k : nat) (l : list A) :
  list_sum (map (fun a => if P a then k else O) l) =
  (List.length (filter P l) * k)%nat.
Proof.
  induction l as [|a l IH]; [reflexivity |].
  change (list_sum (map (fun a => if P a then k else O) (a :: l)))
    with ((if P a then k else O) +
          list_sum (map (fun a => if P a then k else O) l))%nat.
  rewrite IH. cbn [filter].
  destruct (P a); cbn [List.length]; lia.
Qed.

(** Of the [600 ^ n] ways to draw [n] cells, those that keep the loop
    sampling are [k ^ n], for [k] the number of excluded grid cells: with a
    free grid cell, [k < 600] and their share shrinks geometrically. *)
Lemma unlucky_draw_sequences (exclude : list Cell) (n : nat) :
  List.length (draw_sequences n) = (600 ^ n)%nat /\
  List.length (filter (all_excluded exclude) (draw_sequences n)) =
  (List.length (filter (fun c => cell_in c exclude) grid_cells) ^ n)%nat.
Proof.
  induction n as [|n [IH1 IH2]]; [split; reflexivity |].
  cbn [draw_sequences]. split.
  - rewrite (flat_map_length_const _ (600 ^ n)%nat).
    + change (List.length grid_cells) with 600%nat. reflexivity.
    + intros c. rewrite length_map. assumption.
  - rewrite filter_flat_map_length.
    rewrite (map_ext _ (fun c => if cell_in c exclude
                                 then (List.length
                                         (filter (fun c => cell_in c exclude)
                                                 grid_cells) ^ n)%nat
                                 else O)).
    + rewrite list_sum_indicator. cbn [Nat.pow]. reflexivity.
    + intros c. rewrite <- IH2.
      generalize (draw_sequences n). intros l.
      induction l as [|x l IHl]; [destruct (cell_in c exclude); reflexivity |].
      cbn [map filter all_excluded forallb].
      destruct (cell_in c exclude) eqn:E; cbn [andb].
      * fold (all_excluded exclude x).
        destruct (all_excluded exclude x); cbn [List.length];
          rewrite IHl; reflexivity.
      * exact IHl.
Qed.

(** With a free grid cell fewer than 600 grid cells are excluded. *)
Lemma excluded_grid_cells_lt (exclude : list Cell) :
  (exists c, In c grid_cells /\ cell_in c exclude = false) ->
  (List.length (filter (fun c => cell_in c exclude) grid_cells) < 600)%nat.
Proof.
  intros (c & Hc & Hfree).
  change 600%nat with (List.length grid_cells).
  generalize grid_cells Hc. intros l Hl.
  induction l as [|a l IH]; [destruct Hl |].
  cbn [filter List.length].
  pose proof (filter_length_le (fun c => cell_in c exclude) l) as Hle.
  destruct Hl as [-> | Hl].
  - rewrite Hfree. lia.
  - specialize (IH Hl). destruct (cell_in a exclude); cbn [List.length]; lia.
Qed.

(** ** The board during a run *)

Lemma removelast_connected (l : list Cell) :
  connected l -> connected (removelast l).
Proof.
  induction l as [|a l IH]; [auto |].
  destruct l as [|b l]; [intros _; exact I |].
  rewrite removelast_cons_cons. intros [Hab Hc].
  split; [| exact (IH Hc)].
  destruct l as [|c l]; [exact I | exact Hab].
Qed.

Lemma next_head_adjacent (head : Cell) (d : Dir) :
  In d all_directions -> manhattan (next_head head d) head = CELL_SIZE.
Proof.
  unfold all_directions, UP, DOWN, LEFT, RIGHT, manhattan, next_head, CELL_SIZE.
  destruct head as [x y].
  intros [<- | [<- | [<- | [<- | []]]]]; cbn [fst snd]; lia.
Qed.

Lemma next_head_on_grid (head : Cell) (d : Dir) :
  In head grid_cells -> In d all_directions ->
  in_bounds (next_head head d) = true ->
  In (next_head head d) grid_cells.
Proof.
  intros Hh Hd Hb. apply in_grid_cells in Hh.
  destruct Hh as (i & j & Hi & Hj & ->). apply in_grid_cells.
  change (WIDTH / CELL_SIZE) with 30 in *.
  change (HEIGHT / CELL_SIZE) with 20 in *.
  unfold in_bounds, next_head, WIDTH, HEIGHT, CELL_SIZE in *.
  cbn [fst snd] in *. rewrite !andb_true_iff in Hb.
  rewrite !Z.leb_le, !Z.ltb_lt in Hb.
  unfold all_directions, UP, DOWN, LEFT, RIGHT in Hd.
  destruct Hd as [<- | [<- | [<- | [<- | []]]]]; cbn [fst snd] in *.
  - exists i, (j - 1). repeat split; try lia. f_equal; lia.
  - exists i, (j + 1). repeat split; try lia. f_equal; lia.
  - exists (i - 1), j. repeat split; try lia. f_equal; lia.
  - exists (i + 1), j. repeat split; try lia. f_equal; lia.
Qed.

Lemma tick_direction_in (g : Game) :
  snake g <> [] -> In (tick_direction g) all_directions.
Proof.
  unfold tick_direction. destruct (snake g); [congruence |].
  intros _. apply chosen_direction_in.
Qed.

Lemma tick_head_next (g : Game) (head : Cell) (tl : list Cell) :
  snake g = head :: tl -> tick_head g = next_head head (tick_direction g).
Proof. unfold tick_head. intros ->. reflexivity. Qed.

Lemma score_after_check_le (g : Game) :
  0 <= score g -> 0 <= score_after_check g <= score g.
Proof. unfold score_after_check. destruct (cell_in _ _); lia. Qed.

Lemma obstacles_after_check_NoDup (g : Game) :
  NoDup (obstacles g) ->
  NoDup (obstacles_after_check g) /\
  ~ In (tick_head g) (obstacles_after_check g).
Proof.
  intros Hnd. destruct (cell_in (tick_head g) (obstacles g)) eqn:E.
  - destruct (obstacles_after_check_hit g E) as (l1 & l2 & Eo & _ & ->).
    rewrite Eo in Hnd. split.
    + apply NoDup_remove_1 in Hnd. assumption.
    + apply NoDup_remove_2 in Hnd. assumption.
  - rewrite (obstacles_after_check_miss g E).
    split; [assumption | apply cell_in_not_In; assumption].
Qed.

Lemma loop_body_board (fuel : nat) (g : Game) (w : World) (g' : Game)
    (w' : World) :
  Inv g -> Board g -> loop_body fuel g w = Ok g' w' -> Board g'.
Proof.
  intros (Hne & Hnd & Hfo & Hsc) (Hfs & Hno & Hdis & Hgrid & Hcon & Hlen) H.
  destruct (terminal_tick g) eqn:T.
  { rewrite (loop_body_terminal fuel g w Hne T) in H.
    inversion H; subst. unfold Board, stopped. cbn. auto 10. }
  pose proof (loop_body_moving_inv fuel g w Hne T) as P. rewrite H in P.
  destruct P as (_ & _ & Hmove & Hspawn).
  destruct (terminal_tick_false g T) as [Hself Hinb].
  destruct (obstacles_after_check_NoDup g Hno) as [Hno' Hnh].
  pose proof (score_after_check_le g Hsc) as Hsac.
  destruct (snake g) as [|head tl] eqn:Es; [congruence |].
  pose proof (tick_direction_in g ltac:(rewrite Es; discriminate)) as Hdir.
  pose proof (tick_head_next g head tl Es) as Hth.
  assert (In (tick_head g) grid_cells) as Hhg.
  { rewrite Hth. apply next_head_on_grid; auto.
    - apply Hgrid. left. reflexivity.
    - rewrite <- Hth. assumption. }
  assert (connected (tick_head g :: head :: tl)) as Hcon'.
  { split; [| assumption]. rewrite Hth. apply next_head_adjacent. assumption. }
  assert (forall c, In c (obstacles_after_check g) ->
                    ~ In c (tick_head g :: head :: tl)) as Hdis'.
  { intros c Hc [<- | Hin]; [contradiction |].
    apply (Hdis c); [apply obstacles_after_check_incl |]; assumption. }
  assert (incl (snake g') (tick_head g :: head :: tl)) as Hsub.
  { destruct Hmove as [(_ & -> & _) | (_ & -> & _)].
    - apply incl_refl.
    - intros c Hc. apply removelast_In in Hc. assumption. }
  assert (~ In (fruit g') (snake g')) as Hfs'.
  { destruct Hmove as [(_ & _ & _ & _ & E5 & _) | (E1 & E2 & E3 & _)].
    - intros Hin. apply E5. apply in_or_app. auto.
    - rewrite E3. intros Hin. apply Hsub in Hin.
      destruct Hin as [E | Hin]; [congruence | contradiction]. }
  assert (connected (snake g')) as Hcon''.
  { destruct Hmove as [(_ & -> & _) | (_ & -> & _)];
      [| apply removelast_connected]; assumption. }
  assert (score g' <= 5 * (Z.of_nat (List.length (snake g')) - 1)) as Hlen'.
  { cbn [List.length] in Hlen.
    destruct Hmove as [(_ & E2 & E3 & _) | (_ & E2 & _ & E4 & _)].
    - rewrite E2, E3. cbn [List.length]. lia.
    - rewrite E2, E4, removelast_cons_length. cbn [List.length]. lia. }
  unfold Board. split; [assumption |].
  split; [| split; [| split; [| split; assumption]]].
  - destruct Hspawn as [(_ & (ob & -> & Hob) & _) | (_ & -> & _)]; auto.
    apply NoDup_app; [assumption | repeat constructor; intros [] |].
    intros c Hc [<- | []]. apply Hob. rewrite !in_app_iff. auto.
  - intros c Hc Hin.
    destruct Hspawn as [(_ & (ob & Eo & Hob) & _) | (_ & Eo & _)];
      rewrite Eo in Hc.
    + apply in_app_iff in Hc. destruct Hc as [Hc | [<- | []]].
      * apply (Hdis' c Hc). apply Hsub. assumption.
      * apply Hob. apply in_or_app. auto.
    + apply (Hdis' c Hc). apply Hsub. assumption.
  - intros c Hc. apply Hsub in Hc.
    destruct Hc as [<- | Hc]; [assumption | apply Hgrid; assumption].
Qed.

Lemma run_from_board (fuel : nat) (g : Game) (w : World) (g' : Game)
    (w' : World) :
  run_from fuel g w g' w' -> Inv g -> Board g -> Board g'.
Proof.
  induction 1 as [| g1 w1 g2 w2 Hrun IH _ Hstep]; intros HI HB; auto.
  exact (loop_body_board fuel g1 w1 g2 w2
           (run_from_preserves _ _ _ _ _ Hrun HI) (IH HI HB) Hstep).
Qed.

Lemma main_init_board (fuel : nat) (w0 : World) (g : Game) (w : World) :
  main_init fuel w0 = Ok g w -> Inv g /\ Board g.
Proof.
  intros Hinit.
  destruct (main_init_spec _ _ _ _ Hinit)
    as (Hs & _ & Hf & Ho & _ & Hsc & _).
  unfold Inv, Board. rewrite Ho, Hsc. rewrite Hs in *.
  repeat split; try discriminate; try (cbn; lia); auto.
  - repeat constructor. intros [].
  - constructor.
  - intros c [<- | []]. apply in_grid_cells. exists 15, 10.
    repeat split; try reflexivity; vm_compute; congruence.
Qed.

Lemma reachable_board (g : Game) (w : World) : reachable g w -> Board g.
Proof.
  intros (fuel & w0 & g0 & w1 & Hinit & Hrun).
  destruct (main_init_board _ _ _ _ Hinit) as [HI HB].
  exact (run_from_board _ _ _ _ _ Hrun HI HB).
Qed.

(** ** The high score during a run *)

Lemma load_high_score_stored (w : World) :
  load_high_score w =
  match stored_value (hs_file w) with
  | Some n => Ok n w
  | None => Raise ValueError
  end.
Proof.
  unfold load_high_score, stored_value.
  destruct (hs_file w) as [content |]; [| reflexivity].
  destruct (strip content); [reflexivity |].
  destruct (py_int _); reflexivity.
Qed.

Lemma stored_value_py_str (n : Z) : stored_value (Some (py_str n)) = Some n.
Proof.
  unfold stored_value. rewrite strip_py_str.
  pose proof (py_int_py_str n) as E.
  destruct (py_str n); [discriminate | exact E].
Qed.

Lemma loop_body_empty_snake (fuel : nat) (g : Game) (w : World) :
  snake g = [] -> loop_body fuel g w = Raise IndexError.
Proof. intros E. unfold loop_body, bind. rewrite E. reflexivity. Qed.

Lemma loop_body_high_score (fuel : nat) (g : Game) (w : World) (g' : Game)
    (w' : World) :
  loop_body fuel g w = Ok g' w' ->
  high_score g <= high_score g' /\
  (stored_value (hs_file w) = Some (high_score g) ->
   stored_value (hs_file w') = Some (high_score g')) /\
  (0 <= score g -> score g <= Z.max 0 (high_score g) ->
   score g' <= Z.max 0 (high_score g')).
Proof.
  intros H.
  destruct (snake g) as [|head tl] eqn:Es.
  { rewrite (loop_body_empty_snake fuel g w Es) in H. discriminate. }
  assert (snake g <> []) as Hne by (rewrite Es; discriminate).
  destruct (terminal_tick g) eqn:T.
  { rewrite (loop_body_terminal fuel g w Hne T) in H.
    inversion H; subst. unfold stopped. cbn. repeat split; auto; lia. }
  pose proof (loop_body_moving_inv fuel g w Hne T) as P. rewrite H in P.
  destruct P as (_ & _ & Hmove & _).
  destruct Hmove as [(_ & _ & E3 & E4 & _ & E6) | (_ & _ & _ & E4 & E5 & E6)].
  - rewrite E4, E6. split; [lia |]. split.
    + intros Hst. destruct (Z.ltb_spec (high_score g) (score g')).
      * rewrite stored_value_py_str. f_equal. lia.
      * rewrite Hst. f_equal. lia.
    + intros _ _. lia.
  - rewrite E4, E5, E6. split; [lia |]. split; [auto |].
    intros Hsc Hle. pose proof (score_after_check_le g Hsc). lia.
Qed.

(** X6: the high score never decreases from one tick boundary to a later
    one. *)
Theorem high_score_never_decreases (fuel : nat) (g : Game) (w : World)
    (g' : Game) (w' : World) :
  run_from fuel g w g' w' -> high_score g <= high_score g'.
Proof.
  induction 1 as [| g1 w1 g2 w2 _ IH _ Hstep]; [lia |].
  destruct (loop_body_high_score _ _ _ _ _ Hstep) as [Hle _]. lia.
Qed.

Lemma reachable_high_score (g : Game) (w : World) :
  reachable g w ->
  stored_value (hs_file w) = Some (high_score g) /\
  score g <= Z.max 0 (high_score g).
Proof.
  intros (fuel & w0 & g0 & w1 & Hinit & Hrun).
  destruct (main_init_board _ _ _ _ Hinit) as [HI _].
  destruct (main_init_spec _ _ _ _ Hinit)
    as (_ & _ & _ & _ & _ & Hsc & _ & Hload & _).
  assert (stored_value (hs_file w1) = Some (high_score g0)) as Hst.
  { rewrite load_high_score_stored in Hload.
    destruct (stored_value (hs_file w1)); [| discriminate].
    inversion Hload. reflexivity. }
  assert (score g0 <= Z.max 0 (high_score g0)) as Hle by lia.
  clear Hinit Hsc Hload. revert Hst Hle.
  induction Hrun as [| g1 w2 g2 w3 Hrun IH _ Hstep]; intros Hst Hle; auto.
  destruct (IH Hst Hle) as [Hst1 Hle1].
  destruct (run_from_preserves _ _ _ _ _ Hrun HI) as (_ & _ & _ & Hsc1).
  destruct (loop_body_high_score _ _ _ _ _ Hstep) as (_ & Hs & Hl).
  split; auto.
Qed.

(** X7: at every tick boundary of a run the high-score file reads back as
    the high score in memory, and the score is at most the high score
    (at most 0 while a negative number read from the file is the high
    score). *)
Theorem high_score_file_in_sync (g : Game) (w : World) :
  reachable g w ->
  load_high_score w = Ok (high_score g) w /\
  score g <= Z.max 0 (high_score g).
Proof.
  intros H. destruct (reachable_high_score g w H) as [Hst Hle].
  split; [| assumption].
  rewrite load_high_score_stored, Hst. reflexivity.
Qed.

(** ** The board at the tick boundaries of a run *)

(** X1: the score is never negative and never more than five points per
    cell the snake has grown by. *)
Theorem score_within_bounds (g : Game) (w : World) :
  reachable g w ->
  0 <= score g <= 5 * (Z.of_nat (List.length (snake g)) - 1).
Proof.
  intros H. destruct (reachable_inv g w H) as (_ & _ & _ & H0).
  destruct (reachable_board g w H) as (_ & _ & _ & _ & _ & H5). lia.
Qed.

(** X2: the fruit is never on the snake and never on an obstacle, from
    its first placement on. *)
Theorem fruit_always_free (g : Game) (w : World) :
  reachable g w ->
  ~ In (fruit g) (snake g) /\ ~ In (fruit g) (obstacles g).
Proof.
  intros H. destruct (reachable_inv g w H) as (_ & _ & Hfo & _).
  destruct (reachable_board g w H) as (Hfs & _). auto.
Qed.

(** X3: no cell holds two obstacles, and no obstacle lies on the snake. *)
Theorem obstacles_distinct_and_off_snake (g : Game) (w : World) :
  reachable g w ->
  NoDup (obstacles g) /\
  forall c, In c (obstacles g) -> ~ In c (snake g).
Proof.
  intros H. destruct (reachable_board g w H) as (_ & Hnd & Hdis & _). auto.
Qed.

(** X4: every cell of the snake is a cell of the grid: inside the screen
    and aligned on multiples of the cell size. *)
Theorem snake_stays_on_grid (g : Game) (w : World) :
  reachable g w ->
  forall c, In c (snake g) ->
    in_bounds c = true /\
    exists i j, c = (i * CELL_SIZE, j * CELL_SIZE).
Proof.
  intros H c Hc.
  destruct (reachable_board g w H) as (_ & _ & _ & Hgrid & _).
  specialize (Hgrid c Hc). split; [apply grid_cells_in_bounds; assumption |].
  apply in_grid_cells in Hgrid. destruct Hgrid as (i & j & _ & _ & E).
  exists i, j. assumption.
Qed.

(** X5: the snake is an unbroken chain: each cell is one grid step (up,
    down, left or right) from the next. *)
Theorem snake_is_a_chain (g : Game) (w : World) :
  reachable g w -> connected (snake g).
Proof.
  intros H. destruct (reachable_board g w H) as (_ & _ & _ & _ & Hc & _).
  assumption.
Qed.

(** ** What the controller's choice means for the game *)

Lemma chosen_direction_best (head : Cell) (tl : list Cell) (food : Cell)
    (obs : list Cell) (d0 : Dir) :
  In d0 all_directions -> valid_move (head :: tl) obs head d0 = true ->
  valid_move (head :: tl) obs head (chosen_direction head tl food obs) = true /\
  manhattan food (next_head head (chosen_direction head tl food obs)) <=
  manhattan food (next_head head d0).
Proof.
  intros Hin Hv. unfold chosen_direction.
  assert (In d0 (filter (valid_move (head :: tl) obs head) all_directions))
    as Hf by (apply filter_In; auto).
  destruct (filter _ all_directions) as [|a l] eqn:F; [destruct Hf |].
  destruct (scan_moves_first_min head food a l)
    as (d & l1 & l2 & -> & S & Hbefore & Hafter).
  split.
  - assert (In d (filter (valid_move (head :: tl) obs head) all_directions))
      as Hd by (rewrite F, S; apply in_elt).
    apply filter_In in Hd. tauto.
  - rewrite S in Hf. apply in_app_iff in Hf.
    destruct Hf as [H1 | [<- | H2]].
    + specialize (Hbefore d0 H1). lia.
    + lia.
    + exact (Hafter d0 H2).
Qed.

Lemma chosen_direction_none (head : Cell) (tl : list Cell) (food : Cell)
    (obs : list Cell) :
  (forall d, In d all_directions ->
             valid_move (head :: tl) obs head d = false) ->
  chosen_direction head tl food obs = RIGHT.
Proof.
  intros Hnone. unfold chosen_direction.
  destruct (filter _ all_directions) as [|a l] eqn:F; [reflexivity |].
  assert (In a (filter (valid_move (head :: tl) obs head) all_directions))
    as Ha by (rewrite F; left; reflexivity).
  apply filter_In in Ha. destruct Ha as [Hin Hv].
  rewrite (Hnone a Hin) in Hv. discriminate.
Qed.

Lemma valid_move_safe (body obs : list Cell) (head : Cell) (d : Dir) :
  valid_move body obs head d = true ->
  hits_wall_or_self (next_head head d) body = false /\
  cell_in (next_head head d) obs = false.
Proof.
  unfold valid_move, hits_wall_or_self, in_bounds.
  rewrite !andb_true_iff, !negb_true_iff.
  intros [[Hb Hs] Ho]. split; [| assumption].
  rewrite Hs. cbn [orb].
  rewrite !orb_false_iff, !Z.ltb_ge, !Z.leb_gt.
  rewrite !Z.leb_le, !Z.ltb_lt in Hb. lia.
Qed.

(** X8: as long as some direction is valid, the iteration neither ends the
    run nor runs into an obstacle; so the run ends, and obstacles are hit,
    only when the snake is boxed in, and then the heading is RIGHT. *)
Theorem trouble_only_when_boxed_in (g : Game) (head : Cell) (tl : list Cell) :
  snake g = head :: tl ->
  ((exists d, In d all_directions /\
              valid_move (snake g) (obstacles g) head d = true) ->
   terminal_tick g = false /\
   cell_in (tick_head g) (obstacles g) = false) /\
  (terminal_tick g = true \/ cell_in (tick_head g) (obstacles g) = true ->
   (forall d, In d all_directions ->
              valid_move (snake g) (obstacles g) head d = false) /\
   tick_direction g = RIGHT).
Proof.
  intros Es.
  assert ((exists d, In d all_directions /\
                     valid_move (snake g) (obstacles g) head d = true) ->
          terminal_tick g = false /\
          cell_in (tick_head g) (obstacles g) = false) as Hsafe.
  { intros (d & Hin & Hv). rewrite Es in Hv.
    destruct (chosen_direction_best head tl (fruit g) (obstacles g) d Hin Hv)
      as [Hc _].
    unfold terminal_tick, tick_head, tick_direction. rewrite Es.
    apply valid_move_safe. assumption. }
  split; [exact Hsafe |].
  intros Htrouble.
  assert (forall d, In d all_directions ->
                    valid_move (snake g) (obstacles g) head d = false) as Hnone.
  { intros d Hin.
    destruct (valid_move (snake g) (obstacles g) head d) eqn:Hv; [| reflexivity].
    destruct Hsafe as [H1 H2]; [exists d; auto |].
    destruct Htrouble; congruence. }
  split; [exact Hnone |].
  unfold tick_direction. rewrite Es. apply chosen_direction_none.
  rewrite <- Es. exact Hnone.
Qed.

(** X9: whenever some valid direction brings the head closer to the fruit,
    the direction the controller picks brings it closer. *)
Theorem greedy_step_gets_closer (g : Game) (head : Cell) (tl : list Cell)
    (d0 : Dir) :
  snake g = head :: tl ->
  In d0 all_directions ->
  valid_move (snake g) (obstacles g) head d0 = true ->
  manhattan (fruit g) (next_head head d0) < manhattan (fruit g) head ->
  manhattan (fruit g) (tick_head g) < manhattan (fruit g) head.
Proof.
  intros Es Hin Hv Hlt. rewrite Es in Hv.
  destruct (chosen_direction_best head tl (fruit g) (obstacles g) d0 Hin Hv)
    as [_ Hle].
  unfold tick_head, tick_direction. rewrite Es. lia.
Qed.

(** X10: [random_position] returns exactly the first cell drawn that is not
    excluded: it returns [p] in world [w'] if and only if some round [k]
    within the budget drew [p], [p] is not excluded, every earlier round
    drew an excluded cell, and [w'] is [w] with two more calls to the
    random module per round (clock and high-score file untouched). *)
Theorem random_position_first_free (fuel : nat) (exclude : list Cell)
    (w : World) (p : Cell) (w' : World) :
  random_position fuel exclude w = Ok p w' <->
  exists k,
    (k < fuel)%nat /\
    p = draw (rng_calls w + 2 * k) /\
    cell_in p exclude = false /\
    (forall j, (j < k)%nat ->
               cell_in (draw (rng_calls w + 2 * j)) exclude = true) /\
    w' = mkWorld (rng_calls w + 2 * S k) (clock_calls w) (hs_file w).
Proof.
  split; [apply random_position_inv |].
  intros (k & Hk & -> & Hfree & Hbefore & ->).
  revert fuel w Hk Hfree Hbefore.
  induction k as [|k IH]; intros fuel w Hk Hfree Hbefore;
    (destruct fuel as [|fuel]; [lia |]); rewrite random_position_step.
  - rewrite Nat.mul_0_r, Nat.add_0_r in *. rewrite Hfree. reflexivity.
  - pose proof (Hbefore O ltac:(lia)) as H0.
    rewrite Nat.mul_0_r, Nat.add_0_r in H0. rewrite H0.
    specialize (IH fuel (after_draws w 1) ltac:(lia)).
    cbn [after_draws rng_calls clock_calls hs_file] in IH.
    replace (rng_calls w + 2 * 1 + 2 * k)%nat
      with (rng_calls w + 2 * S k)%nat in IH by lia.
    replace (rng_calls w + 2 * 1 + 2 * S k)%nat
      with (rng_calls w + 2 * S (S k))%nat in IH by lia.
    apply IH; [assumption |].
    intros j Hj.
    replace (rng_calls w + 2 * 1 + 2 * j)%nat
      with (rng_calls w + 2 * S j)%nat by lia.
    apply Hbefore. lia.
Qed.

(** ** How a run ends *)

Lemma while_running_last (fuel ticks : nat) :
  forall g w g' w',
    while_running ticks fuel g w = Ok g' w' -> running g = true ->
    exists g1 w1,
      run_from fuel g w g1 w1 /\ running g1 = true /\
      loop_body fuel g1 w1 = Ok g' w' /\ running g' = false.
Proof.
  induction ticks as [|ticks IH]; intros g w g' w' H Hr;
    cbn [while_running] in H; rewrite Hr in H; [discriminate |].
  unfold bind in H.
  destruct (loop_body fuel g w) as [g2 w2 | e |] eqn:Hs; try discriminate.
  destruct (running g2) eqn:Hr2.
  - destruct (IH _ _ _ _ H Hr2) as (g1 & w1 & Hrun & Hr1 & Hl & Hstop).
    exists g1, w1. split; [| auto].
    eapply run_from_step_left; eauto.
  - destruct ticks; cbn [while_running] in H; rewrite Hr2 in H;
      inversion H; subst; exists g, w; split; auto; apply run_here.
Qed.

(** X11: when [main] returns, the last iteration found the snake boxed
    in: it started from a tick boundary [g1] of the run at which no
    direction was valid, and the state returned is [g1] with the heading
    set to RIGHT and [running] cleared: the final snake, fruit, obstacles
    and score are those of [g1], and nothing was written or drawn. *)
Theorem game_over_means_boxed_in (ticks fuel : nat) (w0 : World) (g : Game)
    (w : World) :
  main ticks fuel w0 = Ok g w ->
  exists g1 head tl,
    reachable g1 w /\ running g1 = true /\ snake g1 = head :: tl /\
    (forall d, In d all_directions ->
               valid_move (snake g1) (obstacles g1) head d = false) /\
    g = mkGame (snake g1) RIGHT (fruit g1) (obstacles g1)
               (last_obstacle_time g1) (score g1) (high_score g1) false.
Proof.
  unfold main, bind. intros H.
  destruct (main_init fuel w0) as [g0 w1 | e |] eqn:Hi; try discriminate.
  destruct (main_init_spec _ _ _ _ Hi) as (_ & _ & _ & _ & _ & _ & Hr0 & _).
  destruct (while_running_last _ _ _ _ _ _ H Hr0)
    as (g1 & w2 & Hrun & Hr1 & Hl & Hstop).
  assert (reachable g1 w2) as Hreach by (exists fuel, w0, g0, w1; auto).
  destruct (reachable_inv g1 w2 Hreach) as (Hne & _).
  destruct (terminal_tick g1) eqn:T.
  - rewrite (loop_body_terminal fuel g1 w2 Hne T) in Hl.
    inversion Hl; subst.
    destruct (snake g1) as [|head tl] eqn:Es; [congruence |].
    assert (forall d, In d all_directions ->
              valid_move (head :: tl) (obstacles g1) head d = false) as Hnone.
    { intros d Hin.
      destruct (valid_move (head :: tl) (obstacles g1) head d) eqn:Hv;
        [| reflexivity].
      destruct (chosen_direction_best head tl (fruit g1) (obstacles g1) d
                  Hin Hv) as [Hc _].
      unfold terminal_tick, tick_head, tick_direction in T. rewrite Es in T.
      destruct (valid_move_safe _ _ _ _ Hc) as [Hsafe _]. congruence. }
    exists g1, head, tl. rewrite Es.
    split; [assumption |]. split; [assumption |]. split; [reflexivity |].
    split; [exact Hnone |].
    unfold stopped, tick_direction. rewrite Es.
    rewrite (chosen_direction_none head tl _ _ Hnone). reflexivity.
  - pose proof (loop_body_moving_inv fuel g1 w2 Hne T) as P. rewrite Hl in P.
    destruct P as (_ & Hrun' & _). congruence.
Qed.

(** ** Where the random cells go, and that iterations complete *)

Lemma after_draws_even (w : World) (n : nat) :
  Nat.even (rng_calls (after_draws w n)) = Nat.even (rng_calls w).
Proof. unfold after_draws. cbn [rng_calls]. apply Nat.even_add_mul_2. Qed.

Lemma eat_or_pop_draws (fuel : nat) (new_head : Cell) (body : list Cell)
    (fr : Cell) (obs : list Cell) (sc hs : Z) (w : World)
    (r : list Cell * Cell * Z * Z) (w' : World) :
  eat_or_pop fuel new_head body fr obs sc hs w = Ok r w' ->
  Nat.even (rng_calls w') = Nat.even (rng_calls w) /\
  (snd (fst (fst r)) = fr \/ exists c, snd (fst (fst r)) = draw c).
Proof.
  unfold eat_or_pop. destruct (cell_eqb new_head fr).
  - unfold bind at 1.
    destruct (random_position fuel (body ++ obs) w) as [fr' w1 | e |] eqn:R;
      try discriminate.
    destruct (random_position_inv _ _ _ _ _ R) as (k & _ & Hp & _ & _ & ->).
    unfold bind. rewrite commit_high_score_spec. unfold ret.
    intros H. injection H as <- <-. cbn [fst snd]. split.
    + destruct (hs <? sc + 5); exact (after_draws_even w (S k)).
    + right. eauto.
  - destruct (list_pop body); [| discriminate].
    unfold ret. intros H. inversion H; subst. cbn [fst snd]. auto.
Qed.

Lemma spawn_obstacle_draws (fuel : nat) (body : list Cell) (fr : Cell)
    (obs : list Cell) (last : Q) (w : World) (ol : list Cell * Q)
    (w' : World) :
  spawn_obstacle fuel body fr obs last w = Ok ol w' ->
  Nat.even (rng_calls w') = Nat.even (rng_calls w) /\
  (forall ob, In ob (fst ol) -> In ob obs \/ exists c, ob = draw c).
Proof.
  unfold spawn_obstacle, bind at 1, time_time.
  destruct (Qgtb _ 2).
  - unfold bind at 1.
    match goal with
    | |- context [random_position fuel ?ex ?w1] =>
        destruct (random_position fuel ex w1) as [ob w2 | e |] eqn:R
    end; try discriminate.
    destruct (random_position_inv _ _ _ _ _ R) as (k & _ & Hp & _ & _ & ->).
    unfold bind, ret. intros H. injection H as <- <-.
    split; [exact (after_draws_even _ (S k)) |]. cbn [fst].
    intros ob' Hin. apply in_app_iff in Hin.
    destruct Hin as [Hin | [<- | []]]; [auto | right; eauto].
  - unfold ret. intros H. inversion H; subst. cbn. auto.
Qed.

Lemma loop_body_draws (fuel : nat) (g : Game) (w : World) (g' : Game)
    (w' : World) :
  loop_body fuel g w = Ok g' w' ->
  Nat.even (rng_calls w') = Nat.even (rng_calls w) /\
  (fruit g' = fruit g \/ exists c, fruit g' = draw c) /\
  (forall ob, In ob (obstacles g') ->
              In ob (obstacles g) \/ exists c, ob = draw c).
Proof.
  intros H.
  destruct (snake g) as [|head tl] eqn:Es.
  { rewrite (loop_body_empty_snake fuel g w Es) in H. discriminate. }
  assert (snake g <> []) as Hne by (rewrite Es; discriminate).
  destruct (terminal_tick g) eqn:T.
  { rewrite (loop_body_terminal fuel g w Hne T) in H.
    inversion H; subst. unfold stopped. cbn. auto. }
  rewrite (loop_body_moving fuel g w Hne T) in H. unfold bind at 1 in H.
  destruct (eat_or_pop _ _ _ _ _ _ _ w) as [r w1 | e |] eqn:He;
    try discriminate.
  destruct (eat_or_pop_draws _ _ _ _ _ _ _ _ _ _ He) as [Hev1 Hfr].
  destruct r as [[[body' fr'] sc'] hs']. cbn [fst snd] in Hfr.
  unfold bind at 1 in H.
  destruct (spawn_obstacle _ _ _ _ _ w1) as [ol w2 | e |] eqn:Hsp;
    try discriminate.
  destruct (spawn_obstacle_draws _ _ _ _ _ _ _ _ Hsp) as [Hev2 Hob].
  unfold ret in H. inversion H; subst g' w'. cbn [fruit obstacles].
  split; [congruence |]. split; [assumption |].
  intros ob Hin. destruct (Hob ob Hin) as [Hin' | Hd]; [| auto].
  left. apply obstacles_after_check_incl. assumption.
Qed.

Lemma main_init_draws (fuel : nat) (w0 : World) (g : Game) (w : World) :
  main_init fuel w0 = Ok g w ->
  Nat.even (rng_calls w) = Nat.even (rng_calls w0) /\
  exists c, fruit g = draw c.
Proof.
  unfold main_init, bind at 1.
  destruct (random_position fuel _ w0) as [fr w1 | e |] eqn:R; try discriminate.
  destruct (random_position_inv _ _ _ _ _ R) as (k & _ & Hp & _ & _ & ->).
  unfold bind, time_time. rewrite load_high_score_stored.
  destruct (stored_value _); [| discriminate].
  unfold ret. intros H. injection H as <- <-.
  split; [exact (after_draws_even _ (S k)) | cbn [fruit]; eauto].
Qed.

(** X12: with [random.randint] answering within its bounds, the fruit and
    every obstacle are cells of the grid at every tick boundary of a run:
    inside the screen and aligned on the cell size. *)
Theorem fruit_and_obstacles_on_grid (g : Game) (w : World) :
  randint_in_range -> reachable g w ->
  In (fruit g) grid_cells /\
  forall ob, In ob (obstacles g) -> In ob grid_cells.
Proof.
  intros Hr (fuel & w0 & g0 & w1 & Hinit & Hrun).
  destruct (main_init_draws _ _ _ _ Hinit) as (_ & c0 & Hc0).
  destruct (main_init_spec _ _ _ _ Hinit) as (_ & _ & _ & Ho & _).
  assert (In (fruit g0) grid_cells /\
          forall ob, In ob (obstacles g0) -> In ob grid_cells) as H0.
  { rewrite Hc0, Ho. split; [apply draw_in_grid; assumption | intros ob []]. }
  clear Hinit Hc0 Ho. revert H0.
  induction Hrun as [| g1 w2 g2 w3 _ IH _ Hstep]; intros H0; auto.
  destruct (IH H0) as [Hf Hob].
  destruct (loop_body_draws _ _ _ _ _ Hstep) as (_ & Hfr & Hobs). split.
  - destruct Hfr as [-> | (c & ->)]; [assumption | apply draw_in_grid; assumption].
  - intros ob Hin. destruct (Hobs ob Hin) as [Hin' | (c & ->)];
      [auto | apply draw_in_grid; assumption].
Qed.

(** X13: in a run started with an even number of earlier calls to the
    random module, with [random.randint] within its bounds and a fair
    random source, an iteration started at a tick boundary with room left
    on the grid runs to its end: a large enough round budget for the
    sampling loops gives its result. *)
Theorem iterations_complete (fuel : nat) (w0 : World) (g0 : Game)
    (w1 : World) (g : Game) (w : World) :
  randint_in_range -> fair ->
  Nat.even (rng_calls w0) = true ->
  main_init fuel w0 = Ok g0 w1 -> run_from fuel g0 w1 g w ->
  (List.length (snake g) + List.length (obstacles g) + 2 < 600)%nat ->
  exists g' w' fuel1,
    forall fuel', (fuel1 <= fuel')%nat -> loop_body fuel' g w = Ok g' w'.
Proof.
  intros Hr Hfair Hev Hinit Hrun Hlen.
  destruct (main_init_board _ _ _ _ Hinit) as [HI _].
  destruct (run_from_preserves _ _ _ _ _ Hrun HI) as (Hne & _).
  destruct (main_init_draws _ _ _ _ Hinit) as (Hev1 & _).
  assert (Nat.even (rng_calls w) = true) as Hevw.
  { rewrite Hev in Hev1. clear Hinit HI Hne Hlen. revert Hev1.
    induction Hrun as [| g1 w2 g2 w3 _ IH _ Hstep]; intros Hev1; auto.
    destruct (loop_body_draws _ _ _ _ _ Hstep) as (E & _).
    rewrite E. auto. }
  destruct (loop_body_completes g w Hr Hfair Hevw Hne Hlen)
    as (g' & w' & fuel1 & _ & Hres).
  exists g', w', fuel1. exact Hres.
Qed.

(** ** Reading the high-score file *)

Lemma lstrip_all_space (s : string) : all_space s = true -> lstrip s = EmptyString.
Proof.
  induction s as [|a s IH]; [reflexivity |]. cbn [all_space lstrip].
  rewrite andb_true_iff. intros [-> Hs]. auto.
Qed.





(** X14: a missing high-score file, an empty one and one that holds only
    whitespace all read as 0, and reading changes nothing. *)
Theorem load_high_score_blank (w : World) :
  hs_file w = None \/
  (exists content, hs_file w = Some content /\ all_space content = true) ->
  load_high_score w = Ok 0 w.
Proof.
  unfold load_high_score. intros [-> | (content & -> & Hs)]; [reflexivity |].
  unfold strip. rewrite (lstrip_all_space _ Hs). reflexivity.
Qed.


Lemma py_int_letter (a : ascii) (rest : string) :
  is_letter a = true -> py_int (String a rest) = None.
Proof.
  intros Ha. unfold py_int, NilZero.int_of_string.
  assert (Ascii.eqb a "-" = false) as ->.
  { destruct (Ascii.eqb_spec a "-"); [subst; discriminate | reflexivity]. }
  unfold NilZero.uint_of_string. cbn [NilEmpty.uint_of_string].
  destruct (NilEmpty.uint_of_string rest); [| reflexivity].
  destruct a as [[] [] [] [] [] [] [] []]; try discriminate; reflexivity.
Qed.

(** X16: a high-score file whose content, once stripped, starts with a
    letter makes [load_high_score] raise [ValueError], and with it [main]:
    the error is raised once the first fruit is placed, before the first
    iteration, and [main] never returns a final state. *)
Theorem non_numeric_high_score_aborts (ticks fuel : nat) (w : World)
    (content : string) (a : ascii) (rest : string) :
  hs_file w = Some content -> strip content = String a rest ->
  is_letter a = true ->
  load_high_score w = Raise ValueError /\
  (forall g w', main ticks fuel w <> Ok g w') /\
  (forall p w1,
     random_position fuel [(WIDTH / 2, HEIGHT / 2)] w = Ok p w1 ->
     main ticks fuel w = Raise ValueError).
Proof.
  intros Hfile Hstrip Ha.
  assert (forall w1, hs_file w1 = hs_file w ->
                     load_high_score w1 = Raise ValueError) as Hload.
  { intros w1 E. rewrite load_high_score_stored, E, Hfile.
    unfold stored_value. rewrite Hstrip, (py_int_letter a rest Ha).
    reflexivity. }
  split; [apply Hload; reflexivity |].
  assert (forall p w1,
            random_position fuel [(WIDTH / 2, HEIGHT / 2)] w = Ok p w1 ->
            main ticks fuel w = Raise ValueError) as Hmain.
  { intros p w1 R.
    destruct (random_position_inv _ _ _ _ _ R) as (k & _ & _ & _ & _ & Ew).
    unfold main, main_init, bind. rewrite R. unfold time_time.
    rewrite Hload; [reflexivity | rewrite Ew; reflexivity]. }
  split; [| exact Hmain].
  intros g w' H.
  destruct (random_position fuel [(WIDTH / 2, HEIGHT / 2)] w)
    as [p w1 | e |] eqn:R.
  - rewrite (Hmain p w1 eq_refl) in H. discriminate.
  - unfold main, main_init, bind in H. rewrite R in H. discriminate.
  - unfold main, main_init, bind in H. rewrite R in H. discriminate.
Qed.

(** ** The start of a run: a one-cell snake on an open board *)

Lemma manhattan_step (food head : Cell) (d : Dir) :
  In d all_directions ->
  manhattan food head - CELL_SIZE <= manhattan food (next_head head d).
Proof.
  unfold all_directions, UP, DOWN, LEFT, RIGHT, manhattan, next_head, CELL_SIZE.
  destruct head as [x y], food as [fx fy].
  intros [<- | [<- | [<- | [<- | []]]]]; cbn [fst snd]; lia.
Qed.

(** X18: a one-cell snake on a board without obstacles, with head and
    fruit on the grid and apart, is not stopped by the coming iteration and
    moves exactly one cell closer to the fruit. *)
Theorem lone_head_approaches_fruit (g : Game) (head : Cell) :
  snake g = [head] -> obstacles g = [] ->
  In head grid_cells -> In (fruit g) grid_cells -> head <> fruit g ->
  terminal_tick g = false /\
  manhattan (fruit g) (tick_head g) = manhattan (fruit g) head - CELL_SIZE.
Proof.
  intros Es Eo Hh Hf Hne.
  assert (exists d, In d all_directions /\
                    valid_move [head] [] head d = true /\
                    manhattan (fruit g) (next_head head d) =
                    manhattan (fruit g) head - CELL_SIZE) as (d & Hd & Hv & Hm).
  { apply in_grid_cells in Hh. apply in_grid_cells in Hf.
    destruct Hh as (i & j & Hi & Hj & ->).
    destruct Hf as (a & b & Ha & Hb & Ef). rewrite Ef in *.
    change (WIDTH / CELL_SIZE) with 30 in *.
    change (HEIGHT / CELL_SIZE) with 20 in *.
    assert (i <> a \/ j <> b) as Hdiff.
    { destruct (Z.eq_dec i a) as [-> |]; [| auto].
      destruct (Z.eq_dec j b) as [-> |]; [congruence | auto]. }
    assert (forall d,
              0 <= fst (next_head (i * CELL_SIZE, j * CELL_SIZE) d) < WIDTH ->
              0 <= snd (next_head (i * CELL_SIZE, j * CELL_SIZE) d) < HEIGHT ->
              next_head (i * CELL_SIZE, j * CELL_SIZE) d <>
              (i * CELL_SIZE, j * CELL_SIZE) ->
              valid_move [(i * CELL_SIZE, j * CELL_SIZE)] []
                         (i * CELL_SIZE, j * CELL_SIZE) d = true) as Hvalid.
    { intros d Hx Hy Hn. unfold valid_move, in_bounds.
      rewrite !andb_true_iff, !negb_true_iff, !Z.leb_le, !Z.ltb_lt.
      repeat split; try lia.
      apply cell_in_not_In. intros [E | []]. congruence. }
    unfold manhattan, next_head, WIDTH, HEIGHT, CELL_SIZE in *.
    cbn [fst snd] in *.
    assert (a < i \/ i < a \/ (a = i /\ (b < j \/ j < b))) as Hcase by lia.
    destruct Hcase as [H | [H | [-> [H | H]]]].
    - exists LEFT. split; [cbn; auto |]. unfold LEFT. cbn [fst snd].
      split; [apply Hvalid; cbn [fst snd]; try lia; intros E; inversion E; lia
             | lia].
    - exists RIGHT. split; [cbn; auto |]. unfold RIGHT. cbn [fst snd].
      split; [apply Hvalid; cbn [fst snd]; try lia; intros E; inversion E; lia
             | lia].
    - exists UP. split; [cbn; auto |]. unfold UP. cbn [fst snd].
      split; [apply Hvalid; cbn [fst snd]; try lia; intros E; inversion E; lia
             | lia].
    - exists DOWN. split; [cbn; auto |]. unfold DOWN. cbn [fst snd].
      split; [apply Hvalid; cbn [fst snd]; try lia; intros E; inversion E; lia
             | lia]. }
  destruct (chosen_direction_best head [] (fruit g) [] d Hd Hv) as [Hc Hle].
  destruct (valid_move_safe _ _ _ _ Hc) as [Hsafe _].
  pose proof (chosen_direction_in head [] (fruit g) []) as Hin.
  pose proof (manhattan_step (fruit g) head _ Hin) as Hge.
  unfold terminal_tick, tick_head, tick_direction. rewrite Es, Eo.
  split; [assumption | lia].
Qed.

End Game.

(** ** Concrete runs

    Random sources and clocks to run the model on: a random source that
    answers from a script (and with the lower bound once the script is
    exhausted), one that sweeps the grid cell by cell, and a clock that
    advances by a fixed amount at every reading. *)

Definition scripted_randint (script : list Z) (k : nat) (lo hi : Z) : Z :=
  nth k script lo.

Definition sweeping_randint (k : nat) (lo hi : Z) : Z :=
  let n := Z.of_nat (Nat.div2 k) in
  lo + (if Nat.even k then n else n / 30) mod (hi - lo + 1).

Definition ticking_clock (dt : Q) (k : nat) : Q :=
  (inject_Z (Z.of_nat k) * dt)%Q.

Definition fresh_world : World := mkWorld 0 0 None.

(** A run that eats the first fruit and is then fenced in by obstacles:
    the draws are the first fruit, the second fruit and five obstacles, and
    the clock advances three seconds per reading. *)
Definition fence_script : list Z :=
  [16; 10; 29; 10; 19; 9; 19; 11; 20; 10; 0; 0; 1; 1].

Definition fenced_game : Game :=
  mkGame [(380, 200); (360, 200)] RIGHT (580, 200)
         [(380, 180); (380, 220); (400, 200); (0, 0)] 24 5 5 true.

Definition fenced_world : World := mkWorld 12 9 (Some "5"%string).

(** A snake coiled in the bottom right corner of the screen. *)
Definition cornered_game : Game :=
  mkGame [(580, 380); (560, 380); (560, 360); (580, 360)] UP (0, 0) []
         0 15 15 true.

Lemma fenced_game_reachable :
  reachable (scripted_randint fence_script) (ticking_clock 3)
            fenced_game fenced_world.
Proof.
  apply (main_ticks_reachable _ _ 4 5 fresh_world). vm_compute. reflexivity.
Qed.

Lemma sweeping_randint_in_range : randint_in_range sweeping_randint.
Proof.
  intros k lo hi H. unfold sweeping_randint.
  pose proof (Z.mod_pos_bound
                (if Nat.even k then Z.of_nat (Nat.div2 k)
                 else Z.of_nat (Nat.div2 k) / 30)
                (hi - lo + 1) ltac:(lia)).
  lia.
Qed.

(** The sweeping source is fair from every round boundary: round [n] draws
    column [n mod 30] and row [(n / 30) mod 20]. *)
Lemma sweeping_randint_fair_everywhere : fair sweeping_randint.
Proof.
  intros m cell Hc. apply in_grid_cells in Hc.
  destruct Hc as (i & j & Hi & Hj & ->).
  change (WIDTH / CELL_SIZE) with 30 in Hi.
  change (HEIGHT / CELL_SIZE) with 20 in Hj.
  set (t := i + 30 * j).
  set (q := - ((t - Z.of_nat m) / 600)).
  exists (Z.to_nat ((t - Z.of_nat m) mod 600)).
  pose proof (Z.mod_pos_bound (t - Z.of_nat m) 600 ltac:(lia)) as Hb.
  pose proof (Z.div_mod (t - Z.of_nat m) 600 ltac:(lia)) as Hdm.
  assert (0 <= q) as Hq.
  { unfold q. assert ((t - Z.of_nat m) / 600 < 1); [| lia].
    apply Z.div_lt_upper_bound; unfold t; lia. }
  assert (Z.of_nat (m + Z.to_nat ((t - Z.of_nat m) mod 600)) =
          i + (j + 20 * q) * 30) as Hn.
  { rewrite Nat2Z.inj_add, Z2Nat.id by lia. unfold q, t in *. lia. }
  unfold draw, sweeping_randint.
  replace (2 * m + 2 * Z.to_nat ((t - Z.of_nat m) mod 600))%nat
    with (2 * (m + Z.to_nat ((t - Z.of_nat m) mod 600)))%nat by lia.
  rewrite Nat.even_even, Nat.div2_double.
  replace (Nat.even (S (2 * (m + Z.to_nat ((t - Z.of_nat m) mod 600)))))
    with false
    by (rewrite <- Nat.add_1_r, Nat.even_odd; reflexivity).
  rewrite Nat.div2_succ_double, Hn.
  change (WIDTH / CELL_SIZE - 1 - 0 + 1) with 30.
  change (HEIGHT / CELL_SIZE - 1 - 0 + 1) with 20.
  rewrite Z.mod_add, Z.div_add, (Z.div_small i 30) by lia.
  rewrite !Z.add_0_l, (Z.mul_comm 20 q), Z.mod_add by lia.
  rewrite !Z.mod_small by lia. reflexivity.
Qed.

(** The scenario of the specification, in pixels: head at cell (5,5), food
    at cell (8,5), no obstacle. *)
Example get_direction_to_food_towards_food (rnd : nat -> Z -> Z -> Z) :
  get_direction_to_food rnd [(100, 100)] (160, 100) [] fresh_world =
  Ok RIGHT fresh_world.
Proof. reflexivity. Qed.

(** A tie between UP and DOWN goes to UP, the first enumerated. *)
Example get_direction_to_food_tie (rnd : nat -> Z -> Z -> Z) :
  get_direction_to_food rnd [(100, 100); (120, 100)] (160, 100)
                        [] fresh_world =
  Ok UP fresh_world.
Proof. reflexivity. Qed.

Lemma terminal_tick_stops_witness :
  exists g',
    loop_body (scripted_randint []) (ticking_clock 1) 3 cornered_game
              fresh_world = Ok g' fresh_world /\
    running g' = false /\
    snake g' = [(580, 380); (560, 380); (560, 360); (580, 360)] /\
    score g' = 15.
Proof.
  destruct (terminal_tick_stops (scripted_randint []) (ticking_clock 1) 3
              cornered_game fresh_world)
    as (g' & H1 & H2 & H3 & _ & _ & H6 & _).
  - discriminate.
  - reflexivity.
  - right. reflexivity.
  - exists g'. auto.
Defined.

Lemma high_score_commit_witness :
  exists w1,
    commit_high_score 12 0 fresh_world = Ok 12 w1 /\
    load_high_score w1 = Ok 12 w1 /\
    hs_file w1 = Some "12"%string /\
    commit_high_score 5 12 w1 = Ok 12 w1.
Proof.
  apply (proj2 (high_score_commit fresh_world 0 eq_refl)). lia.
Defined.

Lemma obstacle_hit_penalty_witness :
  exists g' w',
    loop_body (scripted_randint fence_script) (ticking_clock 3) 5
              fenced_game fenced_world = Ok g' w' /\
    tick_head fenced_game = (400, 200) /\
    score g' = 2 /\
    snake g' = [(400, 200); (380, 200)] /\
    obstacles g' = [(380, 180); (380, 220); (0, 0); (20, 20)].
Proof.
  pose proof (obstacle_hit_penalty (scripted_randint fence_script)
                (ticking_clock 3) 5 fenced_game fenced_world
                fenced_game_reachable eq_refl eq_refl) as P.
  destruct (loop_body (scripted_randint fence_script) (ticking_clock 3) 5
              fenced_game fenced_world) as [g' w' | e |] eqn:E.
  - destruct P as (_ & Hs & Hb & _).
    exists g', w'. split; [reflexivity |]. split; [reflexivity |].
    split; [exact Hs |]. split; [exact Hb |].
    vm_compute in E. inversion E. reflexivity.
  - destruct P.
  - vm_compute in E. discriminate.
Defined.

Lemma snake_grows_only_on_food_witness :
  exists g0 w0 g1 w1,
    main_init (scripted_randint fence_script) (ticking_clock 3) 5
              fresh_world = Ok g0 w0 /\
    loop_body (scripted_randint fence_script) (ticking_clock 3) 5 g0 w0 =
    Ok g1 w1 /\
    tick_head g0 = fruit g0 /\
    snake g0 = [(300, 200)] /\ snake g1 = [(320, 200); (300, 200)] /\
    score g1 = score g0 + 5.
Proof.
  set (g0 := mkGame [(300, 200)] RIGHT (320, 200) [] 0 0 0 true).
  set (w0 := mkWorld 2 1 None).
  assert (reachable (scripted_randint fence_script) (ticking_clock 3) g0 w0)
    as Hreach.
  { apply (main_ticks_reachable _ _ 0 5 fresh_world). vm_compute. reflexivity. }
  pose proof (snake_grows_only_on_food (scripted_randint fence_script)
                (ticking_clock 3) 5 g0 w0 Hreach eq_refl) as P.
  destruct (loop_body (scripted_randint fence_script) (ticking_clock 3) 5
              g0 w0) as [g1 w1 | e |] eqn:E.
  - destruct P as [Heat _]. destruct (Heat eq_refl) as (Hs & _ & Hsc).
    exists g0, w0, g1, w1.
    split; [vm_compute; reflexivity |]. split; [exact E |].
    split; [reflexivity |]. split; [reflexivity |]. split; assumption.
  - destruct P.
  - vm_compute in E. discriminate.
Defined.

Lemma snake_never_self_intersects_witness :
  NoDup (snake fenced_game).
Proof.
  exact (snake_never_self_intersects (scripted_randint fence_script)
           (ticking_clock 3) fenced_game fenced_world fenced_game_reachable).
Defined.

Lemma relocated_fruit_is_free_witness :
  exists g' w',
    loop_body (scripted_randint fence_script) (ticking_clock 3) 5
              (mkGame [(300, 200)] RIGHT (320, 200) [] 0 0 0 true)
              (mkWorld 2 1 None) = Ok g' w' /\
    fruit g' = (580, 200) /\
    ~ In (fruit g') (snake g') /\ ~ In (fruit g') (obstacles g').
Proof.
  set (g0 := mkGame [(300, 200)] RIGHT (320, 200) [] 0 0 0 true).
  set (w0 := mkWorld 2 1 None).
  assert (snake g0 <> []) as Hne by discriminate.
  pose proof (relocated_fruit_is_free (scripted_randint fence_script)
                (ticking_clock 3) 5 g0 w0 Hne eq_refl eq_refl) as P.
  destruct (loop_body (scripted_randint fence_script) (ticking_clock 3) 5
              g0 w0) as [g' w' | e |] eqn:E.
  - destruct P as (_ & Hs & _ & Ho).
    exists g', w'. split; [reflexivity |]. split; [| split; assumption].
    vm_compute in E. inversion E. reflexivity.
  - destruct P.
  - vm_compute in E. discriminate.
Defined.

Lemma random_position_terminates_witness :
  exists p w' fuel0,
    (forall fuel, (fuel0 <= fuel)%nat ->
                  random_position sweeping_randint fuel [(0, 0)] fresh_world =
                  Ok p w') /\
    In p grid_cells /\ in_bounds p = true /\ cell_in p [(0, 0)] = false.
Proof.
  apply (proj1 (random_position_terminates sweeping_randint [(0, 0)]
                  fresh_world sweeping_randint_in_range
                  (sweeping_randint_fair_everywhere 0%nat))).
  exists (20, 0). split; [| reflexivity].
  apply in_grid_cells. exists 1, 0.
  change (WIDTH / CELL_SIZE) with 30. change (HEIGHT / CELL_SIZE) with 20.
  repeat split; try reflexivity; lia.
Defined.



Lemma controller_always_answers_witness :
  exists d,
    get_direction_to_food (scripted_randint []) (snake cornered_game)
                          (fruit cornered_game) (obstacles cornered_game)
                          fresh_world = Ok d fresh_world /\
    In d all_directions /\ tuple_truthy d = true.
Proof.
  destruct (controller_always_answers (scripted_randint []) (ticking_clock 1)
              (580, 380) [(560, 380); (560, 360); (580, 360)] (0, 0) []
              fresh_world) as (d & H1 & H2 & H3 & _).
  exists d. auto.
Defined.

(** ** More concrete runs *)

(** A run that ends: the snake walks to a fruit on the right wall between
    two obstacles, eats it and is boxed in. *)
Definition wall_script : list Z :=
  [29; 10; 29; 9; 29; 11; 0; 0; 1; 0; 0; 19].

Definition walled_game : Game :=
  mkGame [(580, 200); (560, 200)] RIGHT (0, 380)
         [(580, 180); (580, 220); (0, 0); (20, 0)] 16 5 5 true.

Definition walled_world : World := mkWorld 12 19 (Some "5"%string).

(** The state a run on the sweeping source is in after three iterations. *)
Definition swept_game : Game :=
  mkGame [(300, 140)] UP (0, 0) [(20, 0); (40, 0); (60, 0)] 18 0 0 true.

Definition swept_world : World := mkWorld 8 7 None.

(** The first tick boundary of the fenced run. *)
Definition first_game : Game :=
  mkGame [(300, 200)] RIGHT (320, 200) [] 0 0 0 true.

Definition newline : string := String (ascii_of_nat 10) EmptyString.

Lemma swept_game_reachable :
  reachable sweeping_randint (ticking_clock 3) swept_game swept_world.
Proof.
  apply (main_ticks_reachable _ _ 3 5 fresh_world). vm_compute. reflexivity.
Qed.

Lemma score_within_bounds_witness :
  0 <= score fenced_game <=
  5 * (Z.of_nat (List.length (snake fenced_game)) - 1).
Proof.
  exact (score_within_bounds _ _ _ _ fenced_game_reachable).
Defined.

Lemma fruit_always_free_witness :
  ~ In (fruit fenced_game) (snake fenced_game) /\
  ~ In (fruit fenced_game) (obstacles fenced_game).
Proof.
  exact (fruit_always_free _ _ _ _ fenced_game_reachable).
Defined.

Lemma obstacles_distinct_and_off_snake_witness :
  NoDup (obstacles fenced_game) /\
  ~ In (380, 180) (snake fenced_game).
Proof.
  destruct (obstacles_distinct_and_off_snake _ _ _ _ fenced_game_reachable)
    as [Hnd Hoff].
  split; [exact Hnd |]. apply Hoff. left. reflexivity.
Defined.

Lemma snake_stays_on_grid_witness :
  in_bounds (360, 200) = true /\
  exists i j, (360, 200) = (i * CELL_SIZE, j * CELL_SIZE).
Proof.
  apply (snake_stays_on_grid _ _ _ _ fenced_game_reachable).
  right. left. reflexivity.
Defined.

Lemma snake_is_a_chain_witness : connected (snake fenced_game).
Proof.
  exact (snake_is_a_chain _ _ _ _ fenced_game_reachable).
Defined.

Lemma high_score_never_decreases_witness :
  high_score first_game <= high_score fenced_game.
Proof.
  apply (high_score_never_decreases (scripted_randint fence_script)
           (ticking_clock 3) 5 first_game (mkWorld 2 1 None)
           fenced_game fenced_world).
  apply run_ticks_run_from with (n := 4%nat). vm_compute. reflexivity.
Defined.

Lemma high_score_file_in_sync_witness :
  load_high_score fenced_world = Ok 5 fenced_world /\
  score fenced_game <= Z.max 0 (high_score fenced_game).
Proof.
  exact (high_score_file_in_sync _ _ _ _ fenced_game_reachable).
Defined.

Lemma trouble_only_when_boxed_in_witness :
  (forall d, In d all_directions ->
             valid_move (snake fenced_game) (obstacles fenced_game)
                        (380, 200) d = false) /\
  tick_direction fenced_game = RIGHT.
Proof.
  apply (proj2 (trouble_only_when_boxed_in fenced_game (380, 200)
                  [(360, 200)] eq_refl)).
  right. reflexivity.
Defined.

Lemma greedy_step_gets_closer_witness :
  manhattan (fruit first_game) (tick_head first_game) <
  manhattan (fruit first_game) (300, 200).
Proof.
  apply (greedy_step_gets_closer first_game (300, 200) [] RIGHT eq_refl).
  - right. right. right. left. reflexivity.
  - reflexivity.
  - reflexivity.
Defined.

Lemma game_over_means_boxed_in_witness :
  exists g1 head tl,
    reachable (scripted_randint wall_script) (ticking_clock 1) g1
              walled_world /\
    running g1 = true /\ snake g1 = head :: tl /\
    (forall d, In d all_directions ->
               valid_move (snake g1) (obstacles g1) head d = false) /\
    mkGame (snake walled_game) RIGHT (fruit walled_game)
           (obstacles walled_game) (last_obstacle_time walled_game)
           (score walled_game) (high_score walled_game) false =
    mkGame (snake g1) RIGHT (fruit g1) (obstacles g1)
           (last_obstacle_time g1) (score g1) (high_score g1) false.
Proof.
  apply (game_over_means_boxed_in (scripted_randint wall_script)
           (ticking_clock 1) 20 5 fresh_world).
  vm_compute. reflexivity.
Defined.

Lemma fruit_and_obstacles_on_grid_witness :
  In (fruit swept_game) grid_cells /\
  forall ob, In ob (obstacles swept_game) -> In ob grid_cells.
Proof.
  exact (fruit_and_obstacles_on_grid sweeping_randint (ticking_clock 3)
           swept_game swept_world sweeping_randint_in_range
           swept_game_reachable).
Defined.

Lemma iterations_complete_witness :
  exists g' w' fuel1,
    forall fuel', (fuel1 <= fuel')%nat ->
      loop_body sweeping_randint (ticking_clock 3) fuel' swept_game
                swept_world = Ok g' w'.
Proof.
  apply (iterations_complete sweeping_randint (ticking_clock 3) 5
           fresh_world (mkGame [(300, 200)] RIGHT (0, 0) [] 0 0 0 true)
           (mkWorld 2 1 None) swept_game swept_world
           sweeping_randint_in_range sweeping_randint_fair_everywhere).
  - reflexivity.
  - vm_compute. reflexivity.
  - apply run_ticks_run_from with (n := 3%nat). vm_compute. reflexivity.
  - cbn. lia.
Defined.

Lemma load_high_score_blank_witness :
  load_high_score (mkWorld 0 0 (Some (" " ++ newline)%string)) =
  Ok 0 (mkWorld 0 0 (Some (" " ++ newline)%string)).
Proof.
  apply load_high_score_blank. right.
  exists (" " ++ newline)%string. split; reflexivity.
Defined.


Lemma non_numeric_high_score_aborts_witness :
  load_high_score (mkWorld 0 0 (Some "abc"%string)) = Raise ValueError /\
  main (scripted_randint fence_script) (ticking_clock 3) 10 5
       (mkWorld 0 0 (Some "abc"%string)) = Raise ValueError.
Proof.
  destruct (non_numeric_high_score_aborts (scripted_randint fence_script)
              (ticking_clock 3) 10 5 (mkWorld 0 0 (Some "abc"%string))
              "abc" "a" "bc" eq_refl eq_refl eq_refl) as (Hload & _ & Hmain).
  split; [exact Hload |].
  eapply Hmain. vm_compute. reflexivity.
Defined.

Lemma lone_head_approaches_fruit_witness :
  terminal_tick first_game = false /\
  manhattan (fruit first_game) (tick_head first_game) =
  manhattan (fruit first_game) (300, 200) - CELL_SIZE.
Proof.
  apply (lone_head_approaches_fruit first_game (300, 200)).
  - reflexivity.
  - reflexivity.
  - apply in_grid_cells. exists 15, 10.
    repeat split; try reflexivity; vm_compute; congruence.
  - apply in_grid_cells. exists 16, 10.
    repeat split; try reflexivity; vm_compute; congruence.
  - discriminate.
Defined.
